(** * An HTTP client with retries, slow-call warnings and duration metrics

    A shallow embedding of [index.js]: the retrying transport [_fetch], the
    instrumented [Fetcher.fetch] with its buffered response, and the metrics
    bootstrap [collectDefaultMetrics], followed by the properties proved
    about them.

    JavaScript objects that the code shares and mutates (option maps, label
    sets) live in a heap of property maps; an [async] function is a
    computation over an explicit world that either returns or throws. *)

From Stdlib Require Import Ascii.
From stdpp Require Import base gmap strings list pretty.
From Equations.Prop Require Import Equations Logic.

Open Scope Z_scope.
Set Warnings "-register-all".

(** ** Values and objects *)

Definition loc := positive.

(** The JavaScript values that occur as properties of option maps and label
    sets. Numbers are the integers the program handles (status codes). *)
Inductive JsVal :=
  | JUndefined
  | JNull
  | JBool (b : bool)
  | JNum (n : Z)
  | JStr (s : string)
  | JRef (l : loc).

(** An object: its own enumerable properties. *)
Abbreviation Obj := (gmap string JsVal).

(** ToBoolean. *)
Definition truthy (v : JsVal) : bool :=
  match v with
  | JUndefined | JNull => false
  | JBool b => b
  | JNum n => negb (n =? 0)
  | JStr s => negb (String.eqb s EmptyString)
  | JRef _ => true
  end.

(** [a || b] *)
Definition js_or (a b : JsVal) : JsVal := if truthy a then a else b.

(** A thrown value: an error object with its [name], the [type] tag that
    node-fetch puts on a FetchError, and its [message]. A thrown value is
    handed on as it is; nothing in the program copies one. *)
Record Error := mkError {
  e_name : string;
  e_type : option string;
  e_message : string
}.

(** The double-quote character of a template literal. *)
Definition quote : string := String "034"%char EmptyString.

(** [e.toString()] *)
Definition Error_toString (e : Error) : string :=
  e_name e +:+ ": " +:+ e_message e.

Abbreviation Buffer := (list Byte.byte).

(** What [JSON.parse] returns. *)
Inductive JSONValue :=
  | JSONnull
  | JSONbool (b : bool)
  | JSONnumber (n : Z)
  | JSONstring (s : string)
  | JSONarray (items : list JSONValue)
  | JSONobject (members : list (string * JSONValue)).

(** ** The world *)

Inductive Level := Warn | Err.

Record Histogram := mkHistogram {
  h_name : string;
  h_help : string;
  h_labelNames : list string;
  h_buckets : list Z
}.

(** [new MetricsTracker({ metrics })] *)
Record MetricsTracker := mkTracker {
  metrics : gmap string Histogram
}.

(** One recorded duration sample with the labels it was recorded under. *)
Record Observation := mkObservation {
  o_metric : string;
  o_labels : Obj;
  o_nanos : N
}.

Record World := mkWorld {
  heap : gmap loc Obj;            (* the objects allocated so far *)
  now : N;                        (* the monotonic clock, in nanoseconds *)
  issued : nat;                   (* requests handed to the transport so far *)
  drained : list nat;             (* response bodies read off the wire, by response *)
  log : list (Level * string);    (* what the logger was given, oldest first *)
  observations : list Observation;
  metricsTracker : option MetricsTracker   (* [let metricsTracker = null] *)
}.

Definition set_heap (f : gmap loc Obj → gmap loc Obj) (w : World) : World :=
  mkWorld (f (heap w)) (now w) (issued w) (drained w) (log w)
          (observations w) (metricsTracker w).

Definition tick (d : N) (w : World) : World :=
  mkWorld (heap w) (now w + d)%N (issued w) (drained w) (log w)
          (observations w) (metricsTracker w).

Definition count_issue (w : World) : World :=
  mkWorld (heap w) (now w) (S (issued w)) (drained w) (log w)
          (observations w) (metricsTracker w).

Definition mark_drained (id : nat) (w : World) : World :=
  mkWorld (heap w) (now w) (issued w) (drained w ++ [id]) (log w)
          (observations w) (metricsTracker w).

Definition write_log (lv : Level) (msg : string) (w : World) : World :=
  mkWorld (heap w) (now w) (issued w) (drained w) (log w ++ [(lv, msg)])
          (observations w) (metricsTracker w).

Definition record_observation (o : Observation) (w : World) : World :=
  mkWorld (heap w) (now w) (issued w) (drained w) (log w)
          (observations w ++ [o]) (metricsTracker w).

Definition set_metricsTracker (t : option MetricsTracker) (w : World) : World :=
  mkWorld (heap w) (now w) (issued w) (drained w) (log w)
          (observations w) t.

(** ** Computations that return or throw *)

Inductive Completion (A : Type) :=
  | Return (a : A)
  | Throw (e : Error).
Arguments Return {A} a.
Arguments Throw {A} e.

Definition M (A : Type) : Type := World → Completion A * World.

#[global] Instance M_ret : MRet M := λ A a w, (Return a, w).

#[global] Instance M_bind : MBind M := λ A B k c w,
  match c w with
  | (Return a, w') => k a w'
  | (Throw e, w') => (Throw e, w')
  end.

Definition throw {A} (e : Error) : M A := λ w, (Throw e, w).

(** [try { body } catch (error) { handler }] *)
Definition try_catch {A} (body : M A) (handler : Error → M A) : M A := λ w,
  match body w with
  | (Return a, w') => (Return a, w')
  | (Throw e, w') => handler e w'
  end.

Definition gets {A} (f : World → A) : M A := λ w, (Return (f w), w).
Definition modify (f : World → World) : M unit := λ w, (Return tt, f w).

(** ** What the program is linked against *)

(** The values of [./constants]. *)
Class Constants := {
  MaxRetries : Z;
  TimeoutErrorString : string;
  WarnAfterSeconds : Z;
  DefaultRequestOptions : Obj;
  Labels_Target : string;
  Labels_Method : string;
  Labels_StatusCode : string;
  Labels_Error : string;
  DefaultValues_Method : string;
  ExternalHttpRequestDurationSeconds : string;
  HistogramValues_Buckets : list Z
}.

(** The response handle as it comes off the wire: a status, and a body
    stream whose draining takes [raw_body_nanos] and yields bytes or fails.
    [raw_id] tells the response objects apart. *)
Record RawResponse := mkRaw {
  raw_id : nat;
  raw_status : Z;
  raw_body : Buffer + Error;
  raw_body_nanos : N
}.

(** One request handed to the transport: how long it takes and how it ends. *)
Record Attempt := mkAttempt {
  nanos : N;
  outcome : RawResponse + Error
}.

(** The network: what the [k]-th request handed to the transport does, given
    the url and the options it is issued with. *)
Class Network := {
  wire : nat → string → Obj → Attempt
}.

(** The built-ins of the runtime that the program calls. *)
Class Runtime := {
  (* [new URL(url).host], or the TypeError the constructor throws *)
  URL_host : string → string + Error;
  (* [JSON.parse(text)], or the SyntaxError it throws *)
  JSON_parse : string → JSONValue + Error;
  (* [buffer.toString()] *)
  Buffer_toString : Buffer → string
}.

(** ** Response objects *)

(** A response object: its status and its three body accessors.
    [Fetcher.fetch] assigns to the accessors of the object it got from the
    transport. *)
Record Response := mkResponse {
  response_id : nat;
  status : Z;
  buffer : M Buffer;
  text : M string;
  json : M JSONValue
}.

Definition body_used : Error :=
  mkError "TypeError" None "body used already".

Definition of_sum {A} (r : A + Error) : M A := λ w,
  match r with
  | inl a => (Return a, w)
  | inr e => (Throw e, w)
  end.

Section Transport.
Context `{Net : Network} `{Rt : Runtime}.

(** Modelled from the spec: the body stream of the transport's response
    (package node-fetch, not part of the sources) "can be consumed exactly
    once": the first read drains it, a later one fails. *)
Definition consume (r : RawResponse) : M Buffer := λ w,
  if bool_decide (raw_id r ∈ drained w) then (Throw body_used, w)
  else of_sum (raw_body r) (tick (raw_body_nanos r) (mark_drained (raw_id r) w)).

(** The response object as node-fetch hands it out. *)
Definition native (r : RawResponse) : Response :=
  {| response_id := raw_id r;
     status := raw_status r;
     buffer := consume r;
     text := b ← consume r; mret (Buffer_toString b);
     json := b ← consume r; of_sum (JSON_parse (Buffer_toString b)) |}.

(** [fetch(url, options)] of node-fetch: one request. *)
Definition fetch (url : string) (options : loc) : M Response := λ w,
  let a := wire (issued w) url (heap w !!! options) in
  let w' := tick (nanos a) (count_issue w) in
  match outcome a with
  | inl r => (Return (native r), w')
  | inr err => (Throw err, w')
  end.

End Transport.

(** ** The retrying transport *)

Section Retrying.
Context `{K : Constants} `{Net : Network} `{Rt : Runtime}.

(** [err.type !== constants.TimeoutErrorString] *)
Definition not_timeout (err : Error) : bool :=
  negb (bool_decide (e_type err = Some TimeoutErrorString)).

(** [_fetch(url, options, retries = 1)]. The recursion ends because the
    distance of [retries] to [MaxRetries] shrinks with every retry. *)
Equations? _fetch (url : string) (options : loc) (retries : Z) (w : World)
  : Completion Response * World by wf (Z.to_nat (MaxRetries - retries)) lt :=
_fetch url options retries w with fetch url options w := {
  | (Return result, w') := (Return result, w');
  | (Throw err, w') with inspect ((retries <? MaxRetries) && not_timeout err) := {
    | exist _ true _ := _fetch url options (retries + 1) w';
    | exist _ false _ := (Throw err, w') } }.
Proof.
  apply andb_prop in e as [Hlt _]. apply Z.ltb_lt in Hlt. lia.
Qed.

End Retrying.

(** ** Objects in the heap *)

(** A new object with the given properties. *)
Definition alloc (o : Obj) : M loc := λ w,
  let l := fresh (dom (heap w)) in
  (Return l, set_heap (<[l := o]>) w).

(** [object[key]], [undefined] when the property is absent. *)
Definition get_prop (object : loc) (key : string) : M JsVal :=
  gets (λ w, default JUndefined ((heap w !!! object) !! key)).

(** [object[key] = v] *)
Definition set_prop (object : loc) (key : string) (v : JsVal) : M unit :=
  modify (set_heap (alter (<[key := v]>) object)).

(** A source of [Object.assign]: the properties of a constant object of
    the program, or an argument, which is [undefined] or a reference. *)
Inductive Source :=
  | Literal (o : Obj)
  | Argument (v : option loc).

Definition own_props (s : Source) : M Obj :=
  gets (λ w, match s with
             | Literal o => o
             | Argument (Some l) => heap w !!! l
             | Argument None => ∅
             end).

(** [Object.assign(target, ...sources)]: every source in turn has its
    properties written to the target; the sources are only read. *)
Fixpoint Object_assign (target : loc) (sources : list Source) : M loc :=
  match sources with
  | [] => mret target
  | s :: rest =>
      props ← own_props s;
      modify (set_heap (alter (λ o, props ∪ o) target));;
      Object_assign target rest
  end.

(** ** The clock and the logger *)

(** A reading [[seconds, nanoseconds]] of [process.hrtime]. *)
Definition hrtime (t : N) : N * N := (t / 10 ^ 9, t mod 10 ^ 9)%N.

(** [process.hrtime()] reads the clock, [process.hrtime(time)] the time
    gone by since the earlier reading [time]. *)
Definition process_hrtime (time : option (N * N)) : M (N * N) :=
  gets (λ w, match time with
             | None => hrtime (now w)
             | Some (s, ns) => hrtime (now w - (s * 10 ^ 9 + ns))
             end%N).

Module Logger.
Record t := mk {
  warn : string → M unit;
  error : string → M unit
}.
End Logger.

(** The logger whose lines the world keeps. *)
Definition recording : Logger.t :=
  {| Logger.warn := λ msg, modify (write_log Warn msg);
     Logger.error := λ msg, modify (write_log Err msg) |}.

(** ** The metrics collaborator *)

(** What the package writes under the [error] label for a failed action. *)
Class MetricsPackage := {
  errorLabel : Error → JsVal
}.

Section Tracker.
Context `{K : Constants} `{P : MetricsPackage}.

(** One sample for [metricName]: the time since [start], under the labels
    as they are now. *)
Definition observe (metricName : string) (labels : loc) (start : N) : M unit :=
  modify (λ w, record_observation
                 (mkObservation metricName (heap w !!! labels) (now w - start)) w).

(** Modelled from the spec: [trackHistogramDuration] of the metrics
    collaborator (package nodejs-metrics, not part of the sources) "runs
    action(), measures elapsed time, invokes onResult(result, labels) to let
    the caller mutate labels based on the outcome, then records the elapsed
    time into the named histogram under the final labels"; a failed action
    is recorded as well, under the [error] label the histogram is registered
    with, and fails the call with the same error. *)
Definition trackHistogramDuration (tracker : MetricsTracker)
    (metricName : string) (labels : loc)
    (action : M Response) (handleResult : Response → loc → M unit) : M Response :=
  start ← gets now;
  try_catch
    (result ← action;
     handleResult result labels;;
     observe metricName labels start;;
     mret result)
    (λ err,
     set_prop labels Labels_Error (errorLabel err);;
     observe metricName labels start;;
     throw err).

End Tracker.

(** ** The instrumented fetcher *)

Record Fetcher := mkFetcher {
  _logger : Logger.t
}.

Module Fetcher.
Section Methods.
Context `{K : Constants} `{Net : Network} `{Rt : Runtime} `{P : MetricsPackage}.

Definition _setDefaultOptions (options : option loc) : M loc :=
  target ← alloc ∅;
  mergedOptions ← Object_assign target
    [Literal DefaultRequestOptions; Argument options];
  mret mergedOptions.

(** The accessors [fetch] assigns to the response once its body is in
    [buffer]. *)
Definition buffered (url : string) (response : Response) (buffer : Buffer)
    : Response :=
  {| response_id := response_id response;
     status := status response;
     text := mret (Buffer_toString buffer);
     json :=
       try_catch
         (of_sum (JSON_parse (Buffer_toString buffer)))
         (λ e, throw (mkError "Error" None
            ("Error parsing response from " +:+ url +:+
             ". Status: " +:+ pretty (status response) +:+
             ". Body: " +:+ Buffer_toString buffer +:+
             ". " +:+ Error_toString e)));
     buffer := mret buffer |}.

(** Lines 34-48, the request: inside a span of the tracker when the call
    is tracked, bare otherwise. [shouldTrackRequest] is the value of
    [!mergedOptions.skipTrackRequest && metricsTracker]: the tracker when
    there is one and the options do not opt out. *)
Definition fetch_request (url : string) (mergedOptions : loc)
    (shouldTrackRequest : option MetricsTracker) : M Response :=
  match shouldTrackRequest with
  | Some metricsTracker =>
      host ← of_sum (URL_host url);
      method ← get_prop mergedOptions "method";
      currentRequestLabels ← alloc
        (<[Labels_Method := js_or method (JStr DefaultValues_Method)]>
           {[Labels_Target := JStr host]});
      trackHistogramDuration metricsTracker
        ExternalHttpRequestDurationSeconds
        currentRequestLabels
        (_fetch url mergedOptions 1)
        (λ result labels,
           set_prop labels Labels_StatusCode (JNum (status result)))
  | None => _fetch url mergedOptions 1
  end.

(** Lines 33-69, the [try] block. *)
Definition fetch_try (this : Fetcher) (url : string) (mergedOptions : loc)
    (shouldTrackRequest : option MetricsTracker) (startTime : N * N)
    : M Response :=
  response ← fetch_request url mergedOptions shouldTrackRequest;
  endTime ← process_hrtime (Some startTime);
  (if Z.of_N (fst endTime) >=? WarnAfterSeconds
   then Logger.warn (_logger this)
          ("Request to " +:+ url +:+ " took " +:+ pretty (fst endTime) +:+
           " seconds to execute.")
   else mret tt);;
  buffer ← buffer response;
  mret (buffered url response buffer).

(** Lines 70-74, the [catch] block. *)
Definition fetch_catch (this : Fetcher) (url : string) (startTime : N * N)
    (error : Error) : M Response :=
  endTime ← process_hrtime (Some startTime);
  Logger.error (_logger this)
    ("Failed request for " +:+ url +:+ " with " +:+ quote +:+
     e_message error +:+ quote +:+ " after " +:+ pretty (fst endTime) +:+
     " seconds");;
  throw error.

Definition fetch (this : Fetcher) (url : string) (options : option loc)
    : M Response :=
  mergedOptions ← _setDefaultOptions options;
  skipTrackRequest ← get_prop mergedOptions "skipTrackRequest";
  metricsTracker ← gets metricsTracker;
  let shouldTrackRequest :=
    if negb (truthy skipTrackRequest) then metricsTracker else None in
  startTime ← process_hrtime None;
  try_catch
    (fetch_try this url mergedOptions shouldTrackRequest startTime)
    (fetch_catch this url startTime).

End Methods.
End Fetcher.

(** ** The exports of the module *)

Section Exports.
Context `{K : Constants}.

(** [collectDefaultMetrics(promClient)]: builds the duration histogram and
    stores the tracker in [metricsTracker]. *)
Definition collectDefaultMetrics : M unit :=
  let externalHttpRequestDurationLabels :=
    [Labels_Target; Labels_Method; Labels_StatusCode; Labels_Error] in
  modify (set_metricsTracker (Some (mkTracker
    {[ ExternalHttpRequestDurationSeconds :=
         mkHistogram ExternalHttpRequestDurationSeconds
           ("duration histogram of http responses labeled with: " +:+
            String.concat ", " externalHttpRequestDurationLabels)
           externalHttpRequestDurationLabels
           HistogramValues_Buckets ]}))).

Definition fetcherFactory (logger : Logger.t) : Fetcher := mkFetcher logger.

End Exports.

(** ** Vocabulary of the statements *)

Section Vocabulary.
Context `{K : Constants} `{Net : Network} `{Rt : Runtime}.

(** How the [i]-th request ends that [_fetch url options], called in the
    world [w], hands to the transport ([i] counts from 0). *)
Definition attempt (url : string) (options : loc) (w : World) (i : nat)
    : RawResponse + Error :=
  outcome (wire (issued w + i)%nat url (heap w !!! options)).

(** The request fails with an error that is not classified as a timeout. *)
Definition fails_transiently (a : RawResponse + Error) : Prop :=
  ∃ e, a = inr e ∧ e_type e ≠ Some TimeoutErrorString.

End Vocabulary.

#[global] Instance Level_eq_dec : EqDecision Level.
Proof. solve_decision. Defined.

(** The lines of one level among log entries, oldest first. *)
Definition lines (lv : Level) (entries : list (Level * string)) : list string :=
  omap (λ p, if decide (p.1 = lv) then Some p.2 else None) entries.

(** [part] occurs in [whole]. *)
Definition contains (part whole : string) : Prop :=
  ∃ before after, whole = before +:+ part +:+ after.

(** Whole seconds gone by between two worlds, as [process.hrtime] counts
    them. *)
Definition seconds_between (w w' : World) : N :=
  ((now w' - now w) / 10 ^ 9)%N.

Section CallVocabulary.
Context `{K : Constants} `{Net : Network} `{Rt : Runtime} `{P : MetricsPackage}.

(** The fetcher whose log lines the world keeps. *)
Definition fetcher : Fetcher := fetcherFactory recording.

(** Where a call of [Fetcher.fetch] in the world [w] puts the merged
    options, the world in which its [try] block starts, and the value of
    [shouldTrackRequest] there. *)
Definition merged_at (w : World) : loc := fresh (dom (heap w)).

Definition entered (options : option loc) (w : World) : World :=
  snd (Fetcher._setDefaultOptions options w).

Definition merged (options : option loc) (w : World) : Obj :=
  heap (entered options w) !!! merged_at w.

Definition opted_out (options : option loc) (w : World) : bool :=
  truthy (default JUndefined (merged options w !! "skipTrackRequest")).

Definition tracking (options : option loc) (w : World) : option MetricsTracker :=
  if negb (opted_out options w) then metricsTracker w else None.

End CallVocabulary.

Section CallAttempts.
Context `{K : Constants} `{Net : Network} `{Rt : Runtime} `{P : MetricsPackage}.

(** How the [i]-th request of a call of [Fetcher.fetch] in the world [w]
    ends: it is issued with the merged options. *)
Definition call_attempt (url : string) (options : option loc) (w : World)
    (i : nat) : RawResponse + Error :=
  outcome (wire (issued w + i)%nat url (merged options w)).

(** The call gets as far as the transport: it is not tracked, or its url
    parses. *)
Definition reaches_transport (url : string) (options : option loc)
    (w : World) : Prop :=
  tracking options w = None ∨ ∃ host, URL_host url = inl host.

End CallAttempts.

(** The text of the warning for a request to [url] that took [secs] whole
    seconds, and of the error line for a call that failed with [e]. *)
Definition warning_text (url : string) (secs : N) : string :=
  "Request to " +:+ url +:+ " took " +:+ pretty secs +:+
  " seconds to execute.".

Definition error_text (url : string) (e : Error) (secs : N) : string :=
  "Failed request for " +:+ url +:+ " with " +:+ quote +:+ e_message e +:+
  quote +:+ " after " +:+ pretty secs +:+ " seconds".

(** ** Sentences of the specification that the code does not bear out

    Each is written down as the specification words it, to be tested on a
    concrete call. *)

Section Sentences.
Context `{K : Constants} `{Net : Network} `{Rt : Runtime} `{P : MetricsPackage}.

(** "If a call's total elapsed time is at least [WarnAfterSeconds], exactly
    one warning is logged containing the URL and the elapsed seconds",
    whether the call succeeds or fails. *)
Definition warned_whenever_slow (url : string) (options : option loc)
    (w : World) : Prop :=
  let w' := snd (Fetcher.fetch fetcher url options w) in
  WarnAfterSeconds ≤ Z.of_N (seconds_between w w') →
  ∃ added line,
    log w' = log w ++ added ∧ lines Warn added = [line] ∧
    contains url line ∧ contains (pretty (seconds_between w w')) line.

(** "A call that fails with a non-timeout transient error on the first
    [MaxRetries - 1] attempts and succeeds on attempt [MaxRetries] returns
    the success response." *)
Definition returns_answer_of_last_try (url : string) (options : option loc)
    (w : World) : Prop :=
  reaches_transport url options w →
  1 ≤ MaxRetries →
  (∀ i, (i < Z.to_nat MaxRetries - 1)%nat →
        fails_transiently (call_attempt url options w i)) →
  ∀ r, call_attempt url options w (Z.to_nat MaxRetries - 1) = inl r →
  ∃ response,
    fst (Fetcher.fetch fetcher url options w) = Return response ∧
    status response = raw_status r.

(** Exactly one observation is recorded if and only if a tracker is
    registered and the merged options do not opt out. *)
Definition observed_iff_tracked (url : string) (options : option loc)
    (w : World) : Prop :=
  let w' := snd (Fetcher.fetch fetcher url options w) in
  (∃ o, observations w' = observations w ++ [o]) ↔
  (is_Some (metricsTracker w) ∧ opted_out options w = false).

End Sentences.

(** ** A concrete setting for worked calls *)

Module Setting.

(** Values for [./constants]: three tries, a warning from five seconds on,
    GET by default, node-fetch's tag for a timeout. *)
Definition constants : Constants := {|
  MaxRetries := 3;
  TimeoutErrorString := "request-timeout";
  WarnAfterSeconds := 5;
  DefaultRequestOptions := {[ "method" := JStr "GET" ]};
  Labels_Target := "target";
  Labels_Method := "method";
  Labels_StatusCode := "statusCode";
  Labels_Error := "error";
  DefaultValues_Method := "GET";
  ExternalHttpRequestDurationSeconds := "external_http_request_duration_seconds";
  HistogramValues_Buckets := [1; 5; 10]
|}.

(** The text after the first [://] of a url, and what of it comes before
    the path, the query and the fragment. *)
Fixpoint after_scheme (s : string) : option string :=
  match s with
  | String ":" (String "/" (String "/" rest)) => Some rest
  | String _ s' => after_scheme s'
  | EmptyString => None
  end.

Fixpoint authority (s : string) : string :=
  match s with
  | String c s' =>
      if (Ascii.eqb c "/" || Ascii.eqb c "?" || Ascii.eqb c "#")%bool
      then EmptyString else String c (authority s')
  | EmptyString => EmptyString
  end.

(** A runtime for the texts of the worked calls: a url without a scheme is
    refused, a literal of JSON parses and a bare word does not, a buffer of
    ASCII bytes reads as it is written. *)
Definition runtime : Runtime := {|
  URL_host url :=
    match after_scheme url with
    | Some rest => inl (authority rest)
    | None => inr (mkError "TypeError" None "Invalid URL")
    end;
  JSON_parse s :=
    if String.eqb s "null" then inl JSONnull
    else if String.eqb s "true" then inl (JSONbool true)
    else if String.eqb s "false" then inl (JSONbool false)
    else inr (mkError "SyntaxError" None "Unexpected token in JSON");
  Buffer_toString := String.string_of_list_byte
|}.

Definition package : MetricsPackage := {| errorLabel e := JStr (e_name e) |}.

(** A network that plays a script of attempts and then repeats a last one. *)
Definition scripted (script : list Attempt) (rest : Attempt) : Network :=
  {| wire k _ _ := nth k script rest |}.

Definition second : N := 1000000000.

Definition reset (k : nat) : Error :=
  mkError "FetchError" (Some "system") ("connection reset #" +:+ pretty k).

Definition timed_out : Error :=
  mkError "FetchError" (Some "request-timeout") "network timeout".

Definition answer (status : Z) (body : string) : RawResponse :=
  mkRaw 7 status (inl (String.list_byte_of_string body)) 1000.

(** Every request is reset; the first two are reset and the third is
    answered; every request times out after six seconds; every request is
    answered. *)
Definition resetting : Network :=
  {| wire k _ _ := mkAttempt 1000 (inr (reset k)) |}.

Definition flaky (r : RawResponse) : Network :=
  scripted [mkAttempt 1000 (inr (reset 0)); mkAttempt 1000 (inr (reset 1))]
           (mkAttempt 1000 (inl r)).

Definition stalling : Network :=
  scripted [] (mkAttempt (6 * second) (inr timed_out)).

Definition answering (r : RawResponse) : Network :=
  scripted [] (mkAttempt 1000 (inl r)).

(** Every request is answered after six seconds. *)
Definition dawdling (r : RawResponse) : Network :=
  scripted [] (mkAttempt (6 * second) (inl r)).

(** Every request is answered at once with a body that takes ten seconds to
    arrive. *)
Definition trickling (status : Z) (body : string) : Network :=
  answering (mkRaw 7 status (inl (String.list_byte_of_string body))
               (10 * second)).

(** The world at start-up, with one options object of the caller, and the
    same world once [collectDefaultMetrics] has run. *)
Definition caller_options : loc := 1%positive.

Definition startup : World :=
  mkWorld {[ caller_options := {[ "method" := JStr "POST" ]} ]} 0 0 [] [] []
          None.

Definition registered : World :=
  snd (collectDefaultMetrics (K := constants) startup).

End Setting.

Module Calls.
Import Setting.

Definition url : string := "https://api.example.com/items".

(** [_fetch] and [Fetcher.fetch] over a given network, in the setting of
    [Setting]. *)
Definition retrying (net : Network) : string → loc → Z → M Response :=
  _fetch (K := constants) (Net := net) (Rt := runtime).

Definition calling (net : Network) : string → option loc → M Response :=
  Fetcher.fetch (K := constants) (Net := net) (Rt := runtime) (P := package)
    fetcher.

(** The response a computation returned, [fallback] when it threw. *)
Definition returned (fallback : Response) (c : Completion Response * World)
    : Response :=
  match fst c with
  | Return response => response
  | Throw _ => fallback
  end.

Definition no_response : Response :=
  native (Rt := runtime) (answer 0 EmptyString).

(** The request and the [try] block of [calling net url options] in [w]. *)
Definition requesting (net : Network) (url : string) (options : option loc)
    (w : World) : Completion Response * World :=
  Fetcher.fetch_request (K := constants) (Net := net) (Rt := runtime)
    (P := package) url (merged_at w) (tracking (K := constants) options w)
    (entered (K := constants) options w).

Definition trying (net : Network) (url : string) (options : option loc)
    (w : World) : Completion Response * World :=
  Fetcher.fetch_try (K := constants) (Net := net) (Rt := runtime)
    (P := package) fetcher url (merged_at w)
    (tracking (K := constants) options w) (hrtime (now w))
    (entered (K := constants) options w).

End Calls.

(** ** More networks for worked calls *)

Module MoreSettings.
Import Setting.

(** The first request is reset and every later one ends as [a]. *)
Definition reset_then (a : Attempt) : Network :=
  scripted [mkAttempt 1000 (inr (reset 0))] a.

Definition body_lost : Error :=
  mkError "FetchError" (Some "system") "socket hang up".

(** A response whose body fails to arrive. *)
Definition headless (status : Z) : RawResponse :=
  mkRaw 7 status (inr body_lost) 1000.

(** Every request is answered after six seconds with a response whose body
    fails to arrive. *)
Definition dropping : Network :=
  scripted [] (mkAttempt (6 * second) (inl (headless 200))).

End MoreSettings.

(** * Properties *)

(** ** The retrying transport *)

Section RetryingFacts.
Context `{K : Constants} `{Net : Network} `{Rt : Runtime}.

(** The body of [_fetch], as one equation. *)
Lemma _fetch_body url options retries w :
  _fetch url options retries w =
  match fetch url options w with
  | (Return result, w') => (Return result, w')
  | (Throw err, w') =>
      if (retries <? MaxRetries) && not_timeout err
      then _fetch url options (retries + 1) w'
      else (Throw err, w')
  end.
Proof.
  rewrite _fetch_equation_1.
  destruct (fetch url options w) as [[result|err] w']; simp _fetch; [done|].
  generalize (Logic.inspect ((retries <? MaxRetries) && not_timeout err)).
  intros [[] e]; simp _fetch; by rewrite e.
Qed.

(** One request: what [fetch] of the transport does to the world. *)
Lemma fetch_world url options w :
  snd (fetch url options w) =
  tick (nanos (wire (issued w) url (heap w !!! options))) (count_issue w).
Proof. unfold fetch. by destruct (outcome _). Qed.

(** [_fetch] touches nothing but the clock and the count of requests. *)
Lemma _fetch_frame url options retries w :
  let w' := snd (_fetch url options retries w) in
  heap w' = heap w ∧ drained w' = drained w ∧ log w' = log w ∧
  observations w' = observations w ∧ metricsTracker w' = metricsTracker w ∧
  (now w ≤ now w')%N ∧ (issued w < issued w')%nat.
Proof.
  cbv zeta. remember (Z.to_nat (MaxRetries - retries)) as n eqn:Hn.
  revert retries w Hn. induction n as [n IH] using lt_wf_ind.
  intros retries w Hn. rewrite _fetch_body.
  pose proof (fetch_world url options w) as Hw.
  destruct (fetch url options w) as [[result|err] w1]; simpl in Hw; subst w1.
  - simpl. repeat split; lia.
  - destruct ((retries <? MaxRetries) && not_timeout err) eqn:E.
    + apply andb_prop in E as [Hlt _]. apply Z.ltb_lt in Hlt.
      match goal with |- context [_fetch _ _ ?r ?w1] =>
        destruct (IH (Z.to_nat (MaxRetries - r)) ltac:(lia) r w1 eq_refl)
          as (-> & -> & -> & -> & -> & ? & ?) end.
      simpl in *. repeat split; lia.
    + simpl. repeat split; lia.
Qed.

Lemma not_timeout_true e :
  not_timeout e = true ↔ e_type e ≠ Some TimeoutErrorString.
Proof.
  unfold not_timeout. rewrite negb_true_iff, bool_decide_eq_false. done.
Qed.

Lemma attempt_shift url options w i :
  attempt url options
    (tick (nanos (wire (issued w) url (heap w !!! options))) (count_issue w)) i
  = attempt url options w (S i).
Proof. unfold attempt. simpl. by rewrite Nat.add_succ_r. Qed.

Lemma attempt_0 url options w :
  attempt url options w 0 = outcome (wire (issued w) url (heap w !!! options)).
Proof. unfold attempt. by rewrite Nat.add_0_r. Qed.

(** After [j] transient failures within the ceiling, [_fetch] is where a
    fresh call with the counter moved on by [j] would be. *)
Lemma _fetch_after_failures (j : nat) : ∀ url options retries w,
  retries + Z.of_nat j ≤ MaxRetries →
  (∀ i, (i < j)%nat → fails_transiently (attempt url options w i)) →
  ∃ w1, _fetch url options retries w = _fetch url options (retries + Z.of_nat j) w1 ∧
        issued w1 = (issued w + j)%nat ∧ heap w1 = heap w.
Proof.
  induction j as [|j IH]; intros url options retries w Hle Hfail.
  - exists w. rewrite Z.add_0_r, Nat.add_0_r. done.
  - destruct (Hfail 0%nat ltac:(lia)) as (e & He & Hnt).
    rewrite attempt_0 in He.
    rewrite _fetch_body. unfold fetch at 1. cbv zeta. rewrite He.
    replace ((retries <? MaxRetries) && not_timeout e) with true; cycle 1.
    { symmetry. apply andb_true_intro. split; [apply Z.ltb_lt; lia|].
      by apply not_timeout_true. }
    edestruct (IH url options (retries + 1)) as (w1 & -> & Hi & Hh).
    + lia.
    + intros i Hi. rewrite attempt_shift. apply Hfail. lia.
    + exists w1. split; [f_equal; lia|]. simpl in *. split; [lia|done].
Qed.

(** A response ends [_fetch] at once. *)
Lemma _fetch_returns_at_once url options retries w r :
  attempt url options w 0 = inl r →
  _fetch url options retries w =
  (Return (native r),
   tick (nanos (wire (issued w) url (heap w !!! options))) (count_issue w)).
Proof.
  rewrite attempt_0. intros Hr. rewrite _fetch_body. unfold fetch.
  cbv zeta. by rewrite Hr.
Qed.

(** An error that is a timeout, or that comes when the counter has reached
    the ceiling, ends [_fetch] at once. *)
Lemma _fetch_throws_at_once url options retries w e :
  attempt url options w 0 = inr e →
  MaxRetries ≤ retries ∨ e_type e = Some TimeoutErrorString →
  _fetch url options retries w =
  (Throw e,
   tick (nanos (wire (issued w) url (heap w !!! options))) (count_issue w)).
Proof.
  rewrite attempt_0. intros He Hstop. rewrite _fetch_body. unfold fetch.
  cbv zeta. rewrite He.
  replace ((retries <? MaxRetries) && not_timeout e) with false; [done|].
  symmetry. apply andb_false_iff. destruct Hstop as [Hge|Ht].
  - left. apply Z.ltb_ge. lia.
  - right. unfold not_timeout. by rewrite bool_decide_eq_true_2.
Qed.

(** C2. When each of the first [MaxRetries] requests of a call of the
    retrying transport fails with an error that is not a timeout, the call
    hands exactly [MaxRetries] requests to the transport and throws the very
    error of the last of them. *)
Theorem _fetch_exhausts_MaxRetries url options w :
  1 ≤ MaxRetries →
  (∀ i, (i < Z.to_nat MaxRetries)%nat →
        fails_transiently (attempt url options w i)) →
  ∃ e, attempt url options w (Z.to_nat MaxRetries - 1) = inr e ∧
       fst (_fetch url options 1 w) = Throw e ∧
       issued (snd (_fetch url options 1 w)) =
         (issued w + Z.to_nat MaxRetries)%nat.
Proof.
  intros Hmax Hfail.
  destruct (Hfail (Z.to_nat MaxRetries - 1)%nat ltac:(lia)) as (e & He & _).
  exists e. split; [done|].
  destruct (_fetch_after_failures (Z.to_nat MaxRetries - 1) url options 1 w)
    as (w1 & -> & Hi & Hh).
  - lia.
  - intros i Hlt. apply Hfail. lia.
  - rewrite (_fetch_throws_at_once _ _ _ _ e).
    + simpl. split; [done|]. lia.
    + unfold attempt in *. rewrite Hi, Hh, Nat.add_0_r. done.
    + left. lia.
Qed.

(** The retrying transport by itself: when the first [MaxRetries - 1]
    requests fail with errors that are not timeouts and request number
    [MaxRetries] is answered, [_fetch] returns that response. *)
Theorem _fetch_succeeds_on_last_try url options w r :
  1 ≤ MaxRetries →
  (∀ i, (i < Z.to_nat MaxRetries - 1)%nat →
        fails_transiently (attempt url options w i)) →
  attempt url options w (Z.to_nat MaxRetries - 1) = inl r →
  fst (_fetch url options 1 w) = Return (native r) ∧
  issued (snd (_fetch url options 1 w)) = (issued w + Z.to_nat MaxRetries)%nat.
Proof.
  intros Hmax Hfail Hr.
  destruct (_fetch_after_failures (Z.to_nat MaxRetries - 1) url options 1 w)
    as (w1 & -> & Hi & Hh); [lia|done|].
  rewrite (_fetch_returns_at_once _ _ _ _ r).
  - simpl. split; [done|]. lia.
  - unfold attempt in *. rewrite Hi, Hh, Nat.add_0_r. done.
Qed.

(** C4. When the first request fails with an error classified as a timeout,
    the retrying transport throws that error after this one request,
    whatever [MaxRetries] is. *)
Theorem _fetch_never_retries_a_timeout url options w e :
  attempt url options w 0 = inr e →
  e_type e = Some TimeoutErrorString →
  fst (_fetch url options 1 w) = Throw e ∧
  issued (snd (_fetch url options 1 w)) = S (issued w).
Proof.
  intros He Ht. rewrite (_fetch_throws_at_once _ _ _ _ e); auto.
Qed.

(** C10. A response of the transport, whatever its status code, is returned
    at once and after this one request; a second request is only ever made
    after the first one threw. *)
Theorem _fetch_returns_any_response url options retries w :
  (∀ r, attempt url options w 0 = inl r →
        fst (_fetch url options retries w) = Return (native r) ∧
        status (native r) = raw_status r ∧
        issued (snd (_fetch url options retries w)) = S (issued w)) ∧
  ((S (issued w) < issued (snd (_fetch url options retries w)))%nat →
   ∃ e, attempt url options w 0 = inr e).
Proof.
  split.
  - intros r Hr. by rewrite (_fetch_returns_at_once _ _ _ _ r).
  - destruct (attempt url options w 0) as [r|e] eqn:Hr; [|eauto].
    rewrite (_fetch_returns_at_once _ _ _ _ r) by done. simpl. lia.
Qed.

End RetryingFacts.

(** ** Merging the options *)

Section FetcherFacts.
Context `{K : Constants} `{Net : Network} `{Rt : Runtime} `{P : MetricsPackage}.

(** [_setDefaultOptions] allocates one object, writes the defaults and then
    the caller's properties to it, and returns it. *)
Lemma _setDefaultOptions_eq options w :
  Fetcher._setDefaultOptions options w =
  (Return (merged_at w),
   set_heap (<[merged_at w :=
      match options with
      | Some l => <[merged_at w := DefaultRequestOptions]> (heap w) !!! l
      | None => ∅
      end ∪ DefaultRequestOptions]>) w).
Proof.
  unfold Fetcher._setDefaultOptions, merged_at, alloc, set_heap.
  cbn -[fresh union]. unfold mbind, M_bind, mret, M_ret, modify, gets, set_heap.
  cbn -[fresh union]. f_equal. f_equal.
  rewrite !alter_insert_eq, (right_id_L ∅ (∪)). done.
Qed.

(** ** Unfolding computations *)

Lemma bind_run {A B} (c : M A) (k : A → M B) w :
  (c ≫= k) w =
  match c w with
  | (Return a, w') => k a w'
  | (Throw e, w') => (Throw e, w')
  end.
Proof. done. Qed.

Lemma hrtime_since t0 w :
  process_hrtime (Some (hrtime t0)) w = (Return (hrtime (now w - t0)), w).
Proof.
  unfold process_hrtime, gets, hrtime.
  replace (t0 / 10 ^ 9 * 10 ^ 9 + t0 mod 10 ^ 9)%N with t0; [done|].
  rewrite N.mul_comm. apply N.div_mod'.
Qed.

Lemma fst_hrtime_since w0 w :
  fst (hrtime (now w - now w0)) = seconds_between w0 w.
Proof. done. Qed.

(** The call up to its [try] statement. *)
Lemma fetch_entry url options w :
  Fetcher.fetch fetcher url options w =
  try_catch
    (Fetcher.fetch_try fetcher url (merged_at w) (tracking options w)
       (hrtime (now w)))
    (Fetcher.fetch_catch fetcher url (hrtime (now w)))
    (entered options w).
Proof.
  unfold Fetcher.fetch, tracking, opted_out, merged, entered.
  rewrite bind_run, _setDefaultOptions_eq. cbn [snd].
  reflexivity.
Qed.

Lemma entered_eq options w :
  entered options w =
  set_heap (<[merged_at w :=
      match options with
      | Some l => <[merged_at w := DefaultRequestOptions]> (heap w) !!! l
      | None => ∅
      end ∪ DefaultRequestOptions]>) w.
Proof. unfold entered. by rewrite _setDefaultOptions_eq. Qed.

Lemma fetch_catch_run url w0 e w :
  Fetcher.fetch_catch fetcher url (hrtime (now w0)) e w =
  (Throw e,
   write_log Err
     ("Failed request for " +:+ url +:+ " with " +:+ quote +:+
      e_message e +:+ quote +:+ " after " +:+
      pretty (seconds_between w0 w) +:+ " seconds") w).
Proof.
  unfold Fetcher.fetch_catch. rewrite bind_run, hrtime_since. reflexivity.
Qed.

Lemma fetch_try_run url m should w0 w :
  Fetcher.fetch_try fetcher url m should (hrtime (now w0)) w =
  match Fetcher.fetch_request url m should w with
  | (Return response, w2) =>
      let w3 :=
        if Z.of_N (seconds_between w0 w2) >=? WarnAfterSeconds
        then write_log Warn
               ("Request to " +:+ url +:+ " took " +:+
                pretty (seconds_between w0 w2) +:+ " seconds to execute.") w2
        else w2 in
      match buffer response w3 with
      | (Return b, w4) => (Return (Fetcher.buffered url response b), w4)
      | (Throw e, w4) => (Throw e, w4)
      end
  | (Throw e, w2) => (Throw e, w2)
  end.
Proof.
  unfold Fetcher.fetch_try. rewrite bind_run.
  destruct (Fetcher.fetch_request url m should w) as [[response|e] w2]; [|done].
  rewrite bind_run, hrtime_since, bind_run. rewrite fst_hrtime_since.
  cbv zeta. destruct (Z.of_N (seconds_between w0 w2) >=? WarnAfterSeconds);
    reflexivity.
Qed.

(** ** The request, tracked or not *)

Lemma fetch_request_invalid_url url m t e w :
  URL_host url = inr e →
  Fetcher.fetch_request url m (Some t) w = (Throw e, w).
Proof.
  intros Hu. unfold Fetcher.fetch_request. rewrite bind_run.
  unfold of_sum. by rewrite Hu.
Qed.

Lemma fetch_request_tracked url m t host w :
  URL_host url = inl host →
  Fetcher.fetch_request url m (Some t) w =
  let l := fresh (dom (heap w)) in
  let seen w' :=
    record_observation
      (mkObservation ExternalHttpRequestDurationSeconds (heap w' !!! l)
         (now w' - now w)) w' in
  match
    _fetch url m 1
      (set_heap
         (<[l := <[Labels_Method :=
                     js_or (default JUndefined ((heap w !!! m) !! "method"))
                           (JStr DefaultValues_Method)]>
                   {[Labels_Target := JStr host]}]>) w)
  with
  | (Return result, w2) =>
      (Return result,
       seen (set_heap
               (alter (<[Labels_StatusCode := JNum (status result)]>) l) w2))
  | (Throw err, w2) =>
      (Throw err,
       seen (set_heap (alter (<[Labels_Error := errorLabel err]>) l) w2))
  end.
Proof.
  intros Hu. unfold Fetcher.fetch_request. rewrite bind_run.
  unfold of_sum at 1. rewrite Hu. cbv zeta.
  unfold get_prop, alloc, trackHistogramDuration, set_prop, observe,
    try_catch, gets, modify, throw, mbind, M_bind, mret, M_ret.
  cbv beta iota zeta.
  match goal with |- context [_fetch url m 1 ?w1] =>
    destruct (_fetch url m 1 w1) as [[result|err] w2] end.
  - reflexivity.
  - reflexivity.
Qed.

(** What [_fetch] returns is a response of the transport. *)
Lemma _fetch_native url options retries w response :
  fst (_fetch url options retries w) = Return response →
  ∃ r, response = native r.
Proof.
  remember (Z.to_nat (MaxRetries - retries)) as n eqn:Hn.
  revert retries w Hn. induction n as [n IH] using lt_wf_ind.
  intros retries w Hn. rewrite _fetch_body. unfold fetch at 1. cbv zeta.
  destruct (outcome _) as [r|err]; simpl.
  - intros [= <-]. eauto.
  - destruct ((retries <? MaxRetries) && not_timeout err) eqn:E; [|done].
    apply andb_prop in E as [Hlt _]. apply Z.ltb_lt in Hlt.
    eapply IH; [|reflexivity]. lia.
Qed.

(** The request leaves the log, the drained bodies and every object that
    was there before as they are, and records one observation exactly when
    it is tracked and the url parses. *)
Lemma fetch_request_effects url m should w :
  let res := fst (Fetcher.fetch_request url m should w) in
  let w2 := snd (Fetcher.fetch_request url m should w) in
  log w2 = log w ∧ drained w2 = drained w ∧
  metricsTracker w2 = metricsTracker w ∧ (now w ≤ now w2)%N ∧
  (∀ l o, heap w !! l = Some o → heap w2 !! l = Some o) ∧
  (∀ response, res = Return response → ∃ r, response = native r) ∧
  ∃ seen, observations w2 = observations w ++ seen ∧
          length seen =
            match should, URL_host url with
            | Some _, inl _ => 1%nat
            | _, _ => 0%nat
            end.
Proof.
  cbv zeta. destruct should as [t|].
  - destruct (URL_host url) as [host|e] eqn:Hu.
    + rewrite (fetch_request_tracked _ _ _ host) by done. cbv zeta.
      set (l := fresh (dom (heap w))).
      assert (Hl : heap w !! l = None).
      { apply not_elem_of_dom. apply is_fresh. }
      match goal with |- context [_fetch url m 1 ?w1] =>
        pose proof (_fetch_frame url m 1 w1) as Hf;
        pose proof (_fetch_native url m 1 w1) as Hn;
        destruct (_fetch url m 1 w1) as [[result|err] w2] end.
      all: cbv zeta in Hf; simpl in Hf, Hn;
        destruct Hf as (Hh & Hd & Hlog & Hobs & Htr & Hnow & _).
      all: simpl; rewrite ?Hh, ?Hd, ?Hlog, ?Hobs, ?Htr.
      all: repeat split; try done.
      all: try (intros l' o Hl'; assert (l ≠ l') by congruence;
                by rewrite lookup_alter_ne, lookup_insert_ne by done).
      all: try (intros response [= <-]; by apply Hn).
      all: eexists [_]; split; done.
    + rewrite (fetch_request_invalid_url _ _ _ e) by done. simpl.
      repeat split; try done. by exists []; rewrite app_nil_r.
  - change (Fetcher.fetch_request url m None w) with (_fetch url m 1 w).
    pose proof (_fetch_frame url m 1 w) as Hf. cbv zeta in Hf.
    destruct Hf as (Hh & Hd & Hlog & Hobs & Htr & Hnow & _).
    repeat split; try done.
    + intros l o. by rewrite Hh.
    + apply _fetch_native.
    + exists []. by rewrite app_nil_r.
Qed.

(** ** The whole call *)

Lemma consume_run r w :
  consume r w =
  if bool_decide (raw_id r ∈ drained w) then (Throw body_used, w)
  else (match raw_body r with inl b => Return b | inr e => Throw e end,
        tick (raw_body_nanos r) (mark_drained (raw_id r) w)).
Proof. unfold consume, of_sum. by destruct (raw_body r). Qed.

(** [Fetcher.fetch] in terms of the request and the draining of the body. *)
Lemma fetch_run url options w :
  Fetcher.fetch fetcher url options w =
  match
    Fetcher.fetch_request url (merged_at w) (tracking options w)
      (entered options w)
  with
  | (Return response, w2) =>
      let secs := seconds_between w w2 in
      let w3 :=
        if Z.of_N secs >=? WarnAfterSeconds
        then write_log Warn (warning_text url secs) w2 else w2 in
      match buffer response w3 with
      | (Return b, w4) => (Return (Fetcher.buffered url response b), w4)
      | (Throw e, w4) =>
          (Throw e, write_log Err (error_text url e (seconds_between w w4)) w4)
      end
  | (Throw e, w2) =>
      (Throw e, write_log Err (error_text url e (seconds_between w w2)) w2)
  end.
Proof.
  rewrite fetch_entry. unfold try_catch. rewrite fetch_try_run.
  destruct (Fetcher.fetch_request _ _ _ _) as [[response|e] w2].
  - cbv zeta. fold (warning_text url (seconds_between w w2)).
    destruct (buffer response _) as [[b|e] w4]; [done|].
    by rewrite fetch_catch_run.
  - by rewrite fetch_catch_run.
Qed.

(** ** Texts *)

Lemma append_assoc (a b c : string) : (a +:+ b) +:+ c = a +:+ (b +:+ c).
Proof.
  induction a as [|x a IH]; [done|].
  change (String x ((a +:+ b) +:+ c) = String x (a +:+ (b +:+ c))).
  by rewrite IH.
Qed.

Lemma contains_here part rest : contains part (part +:+ rest).
Proof. by exists EmptyString, rest. Qed.

Lemma contains_end part : contains part part.
Proof.
  exists EmptyString, EmptyString.
  change (part = part +:+ EmptyString).
  induction part as [|x part IH]; [done|].
  change (String x part = String x (part +:+ EmptyString)). by rewrite <- IH.
Qed.

Lemma contains_later part a b : contains part b → contains part (a +:+ b).
Proof.
  intros (x & y & ->). exists (a +:+ x), y. by rewrite append_assoc.
Qed.

Ltac find_part :=
  repeat first [ apply contains_here | apply contains_end | apply contains_later ].

Lemma warning_text_contains url secs :
  contains url (warning_text url secs) ∧
  contains (pretty secs) (warning_text url secs).
Proof. unfold warning_text. split; find_part. Qed.

Lemma error_text_contains url e secs :
  contains url (error_text url e secs) ∧
  contains (e_message e) (error_text url e secs) ∧
  contains (pretty secs) (error_text url e secs).
Proof. unfold error_text. repeat split; find_part. Qed.

Lemma lines_app lv (a b : list (Level * string)) :
  lines lv (a ++ b) = lines lv a ++ lines lv b.
Proof. unfold lines. apply omap_app. Qed.

(** ** The log *)

(** Draining a body touches the clock and the drained bodies only. *)
Lemma consume_frame r w :
  let w' := snd (consume r w) in
  heap w' = heap w ∧ log w' = log w ∧ observations w' = observations w ∧
  metricsTracker w' = metricsTracker w ∧ issued w' = issued w.
Proof. rewrite consume_run. by destruct (bool_decide _). Qed.

Lemma entered_frame options w :
  log (entered options w) = log w ∧ now (entered options w) = now w ∧
  drained (entered options w) = drained w ∧
  observations (entered options w) = observations w ∧
  metricsTracker (entered options w) = metricsTracker w ∧
  issued (entered options w) = issued w.
Proof. by rewrite entered_eq. Qed.

(** What the [try] block writes to the log: the warning, when the request
    returned and was slow, and nothing else. *)
Lemma fetch_try_log url m should w0 w :
  let req := Fetcher.fetch_request url m should w in
  log (snd (Fetcher.fetch_try fetcher url m should (hrtime (now w0)) w)) =
  log w ++
  match fst req with
  | Return _ =>
      if Z.of_N (seconds_between w0 (snd req)) >=? WarnAfterSeconds
      then [(Warn, warning_text url (seconds_between w0 (snd req)))]
      else []
  | Throw _ => []
  end.
Proof.
  cbv zeta. rewrite fetch_try_run.
  destruct (fetch_request_effects url m should w)
    as (Hlog & _ & _ & _ & _ & Hnative & _).
  destruct (Fetcher.fetch_request url m should w) as [[response|e] w2];
    simpl in *; [|by rewrite Hlog, app_nil_r].
  destruct (Hnative response eq_refl) as [r ->].
  change (buffer (native r)) with (consume r).
  match goal with |- context [consume r ?w3] =>
    destruct (consume_frame r w3) as (_ & Hl & _);
    destruct (consume r w3) as [[b|e] w4] end.
  all: simpl in *; rewrite Hl.
  all: destruct (Z.of_N _ >=? _); simpl; by rewrite Hlog, ?app_nil_r.
Qed.

(** C8. Whatever step of the [try] block throws, the call throws the very
    same error, having written exactly one error line, which carries the
    url, the message of the error and the whole seconds gone by; and the
    call throws only what its [try] block threw. *)
Theorem fetch_logs_and_rethrows url options w :
  let try_block :=
    Fetcher.fetch_try fetcher url (merged_at w) (tracking options w)
      (hrtime (now w)) (entered options w) in
  (∀ e w2, try_block = (Throw e, w2) →
     ∃ line,
       Fetcher.fetch fetcher url options w = (Throw e, write_log Err line w2) ∧
       lines Err (log (write_log Err line w2)) = lines Err (log w) ++ [line] ∧
       contains url line ∧ contains (e_message e) line ∧
       contains (pretty (seconds_between w w2)) line) ∧
  (∀ e w', Fetcher.fetch fetcher url options w = (Throw e, w') →
     ∃ w2, try_block = (Throw e, w2)).
Proof.
  cbv zeta. split.
  - intros e w2 Htry. exists (error_text url e (seconds_between w w2)).
    rewrite fetch_entry. unfold try_catch. rewrite Htry, fetch_catch_run.
    split; [done|]. split; [|apply error_text_contains].
    pose proof (fetch_try_log url (merged_at w) (tracking options w) w
                  (entered options w)) as Hlog.
    cbv zeta in Hlog. rewrite Htry in Hlog. simpl in Hlog. simpl.
    rewrite Hlog, !lines_app. destruct (fst _); [destruct (_ >=? _)|]; simpl;
      by rewrite ?app_nil_r.
  - intros e w'. rewrite fetch_entry. unfold try_catch.
    destruct (Fetcher.fetch_try _ _ _ _ _ _) as [[response|e'] w2]; [done|].
    rewrite fetch_catch_run. intros [= -> _]. eauto.
Qed.

(** The log of a whole call: the warning of its [try] block, then the error
    line when it fails. *)
Lemma fetch_log url options w :
  let req :=
    Fetcher.fetch_request url (merged_at w) (tracking options w)
      (entered options w) in
  let res := Fetcher.fetch fetcher url options w in
  ∃ failed,
    log (snd res) =
      log w ++
      match fst req with
      | Return _ =>
          if Z.of_N (seconds_between w (snd req)) >=? WarnAfterSeconds
          then [(Warn, warning_text url (seconds_between w (snd req)))]
          else []
      | Throw _ => []
      end ++ failed ∧
    match fst res with
    | Return _ => failed = []
    | Throw e => ∃ line, failed = [(Err, line)]
    end.
Proof.
  cbv zeta. rewrite fetch_entry. unfold try_catch.
  pose proof (fetch_try_log url (merged_at w) (tracking options w) w
                (entered options w)) as Hlog.
  cbv zeta in Hlog. destruct (entered_frame options w) as (Hl & _).
  rewrite Hl in Hlog.
  destruct (Fetcher.fetch_try _ _ _ _ _ _) as [[response|e] w2].
  - exists []. simpl in *. by rewrite app_nil_r.
  - rewrite fetch_catch_run. eexists [_]. simpl in *.
    rewrite Hlog, <- app_assoc. eauto.
Qed.

(** C1, as the code has it. When the request, tracked or not, returns a
    response and the whole seconds gone by until then reach
    [WarnAfterSeconds], the call writes exactly one warning, which carries
    the url and those seconds, whether or not the body then drains; when the
    request returns sooner or throws, the call writes no warning. *)
Theorem slow_request_warned_once url options w :
  let req :=
    Fetcher.fetch_request url (merged_at w) (tracking options w)
      (entered options w) in
  let secs := seconds_between w (snd req) in
  ∃ added,
    log (snd (Fetcher.fetch fetcher url options w)) = log w ++ added ∧
    (∀ response, fst req = Return response →
       WarnAfterSeconds ≤ Z.of_N secs →
       ∃ line, lines Warn added = [line] ∧
               contains url line ∧ contains (pretty secs) line) ∧
    (∀ response, fst req = Return response →
       Z.of_N secs < WarnAfterSeconds → lines Warn added = []) ∧
    (∀ e, fst req = Throw e → lines Warn added = []).
Proof.
  cbv zeta. destruct (fetch_log url options w) as (failed & Hlog & Hfailed).
  cbv zeta in Hlog, Hfailed. eexists. split; [exact Hlog|].
  assert (Hnone : lines Warn failed = []).
  { destruct (fst (Fetcher.fetch fetcher url options w)).
    - by subst failed.
    - by destruct Hfailed as [line ->]. }
  rewrite lines_app, Hnone, app_nil_r.
  repeat split.
  - intros response -> Hslow.
    replace (_ >=? _) with true by (symmetry; apply Z.geb_le; lia).
    eexists. split; [done|]. apply warning_text_contains.
  - intros response -> Hfast.
    by replace (_ >=? _) with false
      by (symmetry; rewrite Z.geb_leb; apply Z.leb_gt; lia).
  - by intros e ->.
Qed.

(** ** After the request *)

(** Between the return of the request and the end of the call only the log,
    the clock and the drained bodies change. *)
Lemma fetch_after_request url options w :
  let req :=
    Fetcher.fetch_request url (merged_at w) (tracking options w)
      (entered options w) in
  let w' := snd (Fetcher.fetch fetcher url options w) in
  heap w' = heap (snd req) ∧ observations w' = observations (snd req) ∧
  metricsTracker w' = metricsTracker (snd req) ∧
  issued w' = issued (snd req).
Proof.
  cbv zeta. rewrite fetch_run.
  destruct (fetch_request_effects url (merged_at w) (tracking options w)
              (entered options w)) as (_ & _ & _ & _ & _ & Hnative & _).
  destruct (Fetcher.fetch_request _ _ _ _) as [[response|e] w2];
    simpl in *; [|done].
  destruct (Hnative response eq_refl) as [r ->].
  change (buffer (native r)) with (consume r).
  match goal with |- context [consume r ?w3] =>
    destruct (consume_frame r w3) as (Hh & _ & Ho & Ht & Hi);
    destruct (consume r w3) as [[b|e] w4] end.
  all: simpl in *; rewrite Hh, Ho, Ht, Hi; by destruct (_ >=? _).
Qed.

(** A call that returns has drained the body of the response that the
    request returned, once, and hands out that response with the accessors
    replaced. *)
Lemma fetch_returns_inv url options w response w' :
  Fetcher.fetch fetcher url options w = (Return response, w') →
  ∃ r b,
    response = Fetcher.buffered url (native r) b ∧
    raw_body r = inl b ∧
    (raw_id r ∉ drained w) ∧
    drained w' = drained w ++ [raw_id r] ∧
    fst (Fetcher.fetch_request url (merged_at w) (tracking options w)
           (entered options w)) = Return (native r).
Proof.
  rewrite fetch_run.
  destruct (fetch_request_effects url (merged_at w) (tracking options w)
              (entered options w)) as (_ & Hd & _ & _ & _ & Hnative & _).
  destruct (entered_frame options w) as (_ & _ & Hd' & _).
  rewrite Hd' in Hd.
  destruct (Fetcher.fetch_request _ _ _ _) as [[response0|e] w2];
    simpl in *; [|done].
  destruct (Hnative response0 eq_refl) as [r ->].
  change (buffer (native r)) with (consume r). rewrite consume_run.
  match goal with |- context [bool_decide (raw_id r ∈ drained ?w3)] =>
    assert (Hd3 : drained w3 = drained w) by (by destruct (_ >=? _));
    rewrite Hd3; destruct (bool_decide_reflect (raw_id r ∈ drained w)) end;
    [done|].
  destruct (raw_body r) as [b|e] eqn:Hb; [|done].
  intros [= <- <-]. exists r, b. simpl. by rewrite Hd3.
Qed.

(** ** The buffered response *)

(** What the replaced [json()] throws for a text that does not parse. *)
Lemma json_of_buffered url response b w :
  json (Fetcher.buffered url response b) w =
  (match JSON_parse (Buffer_toString b) with
   | inl v => Return v
   | inr e =>
       Throw (mkError "Error" None
         ("Error parsing response from " +:+ url +:+
          ". Status: " +:+ pretty (status response) +:+
          ". Body: " +:+ Buffer_toString b +:+
          ". " +:+ Error_toString e))
   end, w).
Proof.
  unfold Fetcher.buffered, json, try_catch, of_sum, throw.
  by destruct (JSON_parse _).
Qed.

(** C6. When a call has returned and the bytes it buffered are not JSON,
    [json()] of the returned response throws, then and not before, an error
    whose message carries the url, the status code and the text of the
    body. *)
Theorem json_failure_is_descriptive url options w response w' bytes e :
  Fetcher.fetch fetcher url options w = (Return response, w') →
  fst (buffer response w') = Return bytes →
  JSON_parse (Buffer_toString bytes) = inr e →
  ∀ w2, ∃ err,
    json response w2 = (Throw err, w2) ∧
    contains url (e_message err) ∧
    contains (pretty (status response)) (e_message err) ∧
    contains (Buffer_toString bytes) (e_message err).
Proof.
  intros Hret Hb Hparse w2.
  destruct (fetch_returns_inv _ _ _ _ _ Hret) as (r & b & -> & _).
  simpl in Hb. injection Hb as ->.
  rewrite json_of_buffered, Hparse. eexists. split; [done|].
  simpl. repeat split; find_part.
Qed.

(** ** Observations *)

(** C7, as the code has it. A call records at most one observation, and
    exactly one if and only if a tracker is registered, the merged options
    do not opt out and the url parses; with [skipTrackRequest] set it
    records none; without a tracker it records none, makes the bare request,
    and returns whenever that request returns a response whose body
    drains. *)
Theorem observed_iff_tracked_and_parsed url options w :
  let w' := snd (Fetcher.fetch fetcher url options w) in
  ∃ seen,
    observations w' = observations w ++ seen ∧
    (length seen ≤ 1)%nat ∧
    (length seen = 1%nat ↔
       is_Some (metricsTracker w) ∧ opted_out options w = false ∧
       ∃ host, URL_host url = inl host) ∧
    (opted_out options w = true → seen = []) ∧
    (metricsTracker w = None →
       seen = [] ∧ tracking options w = None ∧
       ∀ r b,
         fst (_fetch url (merged_at w) 1 (entered options w))
           = Return (native r) →
         raw_body r = inl b → raw_id r ∉ drained w →
         fst (Fetcher.fetch fetcher url options w)
           = Return (Fetcher.buffered url (native r) b)).
Proof.
  cbv zeta.
  assert (Hbare : metricsTracker w = None →
    tracking options w = None ∧
    ∀ r b,
      fst (_fetch url (merged_at w) 1 (entered options w))
        = Return (native r) →
      raw_body r = inl b → raw_id r ∉ drained w →
      fst (Fetcher.fetch fetcher url options w)
        = Return (Fetcher.buffered url (native r) b)).
  { intros Ht.
    assert (Hnone : tracking options w = None).
    { unfold tracking. rewrite Ht. by destruct (negb _). }
    split; [done|]. intros r b Hr Hb Hfresh. rewrite fetch_run, Hnone.
    change (Fetcher.fetch_request url (merged_at w) None (entered options w))
      with (_fetch url (merged_at w) 1 (entered options w)).
    pose proof (_fetch_frame url (merged_at w) 1 (entered options w)) as Hf.
    cbv zeta in Hf. destruct Hf as (_ & Hd2 & _).
    destruct (entered_frame options w) as (_ & _ & Hd & _).
    destruct (_fetch url (merged_at w) 1 (entered options w))
      as [[response|e] w2]; simpl in Hr; [|done].
    injection Hr as ->. cbv zeta.
    change (buffer (native r)) with (consume r). rewrite consume_run.
    match goal with |- context [bool_decide (raw_id r ∈ drained ?w3)] =>
      assert (Hd3 : drained w3 = drained w)
        by (destruct (_ >=? _); simpl in *; congruence);
      rewrite Hd3 end.
    rewrite bool_decide_eq_false_2 by done. by rewrite Hb. }
  destruct (fetch_after_request url options w) as (_ & Ho & _).
  cbv zeta in Ho. rewrite Ho.
  destruct (fetch_request_effects url (merged_at w) (tracking options w)
              (entered options w)) as (_ & _ & _ & _ & _ & _ & seen & Hs & Hlen).
  destruct (entered_frame options w) as (_ & _ & _ & Hobs & _).
  rewrite Hobs in Hs. exists seen. split; [done|].
  unfold tracking in Hlen.
  destruct (opted_out options w) eqn:Hopt; simpl in Hlen.
  - apply nil_length_inv in Hlen. subst seen. simpl.
    split; [lia|]. split; [|split; [done|]].
    + split; [done|]. by intros (_ & ? & _).
    + intros Ht. split; [done|]. by apply Hbare.
  - destruct (metricsTracker w) as [t|] eqn:Ht.
    + destruct (URL_host url) as [host|e] eqn:Hu.
      * rewrite Hlen. split; [lia|]. split; [|split; [done|done]].
        split; [|done]. intros _. split; [by eexists|]. split; [done|].
        by exists host.
      * apply nil_length_inv in Hlen. subst seen. simpl.
        split; [lia|]. split; [|split; [done|done]].
        split; [done|]. by intros (_ & _ & host & ?).
    + apply nil_length_inv in Hlen. subst seen. simpl.
      split; [lia|]. split; [|split; [done|]].
      * split; [done|]. by intros ([? ?] & _).
      * intros _. split; [done|]. by apply Hbare.
Qed.

(** ** The caller's objects *)

(** C9. [_setDefaultOptions] merges into an object of its own, allocated
    where no object was: the defaults first, the caller's properties over
    them. Every object that exists when [fetch] is called, the caller's
    options among them, has the same properties when the merge is done and
    when the call has returned or thrown. *)
Theorem fetch_leaves_caller_options url options w :
  (merged_at w ∉ dom (heap w)) ∧
  fst (Fetcher._setDefaultOptions options w) = Return (merged_at w) ∧
  (∀ l o, options = Some l → heap w !! l = Some o →
     merged options w = o ∪ DefaultRequestOptions) ∧
  (options = None → merged options w = DefaultRequestOptions) ∧
  (∀ l o, heap w !! l = Some o →
     heap (entered options w) !! l = Some o ∧
     heap (snd (Fetcher.fetch fetcher url options w)) !! l = Some o).
Proof.
  assert (Hfresh : merged_at w ∉ dom (heap w)).
  { unfold merged_at. apply is_fresh. }
  assert (Hkeep : ∀ l o, heap w !! l = Some o →
                         heap (entered options w) !! l = Some o).
  { intros l o Hl. rewrite entered_eq. simpl. rewrite lookup_insert_ne; [done|].
    intros <-. apply Hfresh. by apply elem_of_dom. }
  split; [done|]. split; [by rewrite _setDefaultOptions_eq|].
  split; [|split].
  - intros l o -> Hl. unfold merged. rewrite entered_eq. simpl.
    rewrite lookup_total_insert_eq, lookup_total_insert_ne.
    + by rewrite (lookup_total_correct _ _ _ Hl).
    + intros <-. apply Hfresh. by apply elem_of_dom.
  - intros ->. unfold merged. rewrite entered_eq. simpl.
    by rewrite lookup_total_insert_eq, (left_id_L ∅ (∪)).
  - intros l o Hl. split; [by apply Hkeep|].
    destruct (fetch_after_request url options w) as (-> & _).
    destruct (fetch_request_effects url (merged_at w) (tracking options w)
                (entered options w)) as (_ & _ & _ & _ & Hheap & _).
    by apply Hheap, Hkeep.
Qed.

End FetcherFacts.

(** ** From the retrying transport to the call *)

Section Bridge.
Context `{K : Constants} `{Net : Network} `{Rt : Runtime} `{P : MetricsPackage}.

(** When the call gets as far as the transport, its request is one call of
    [_fetch] with the default counter, in a world that has issued what the
    caller's world had and holds the merged options; the request ends as
    that call ends. *)
Lemma request_reaches_transport url options w :
  reaches_transport url options w →
  let req :=
    Fetcher.fetch_request url (merged_at w) (tracking options w)
      (entered options w) in
  ∃ w1,
    issued w1 = issued w ∧
    (∀ i, attempt url (merged_at w) w1 i = call_attempt url options w i) ∧
    fst req = fst (_fetch url (merged_at w) 1 w1) ∧
    issued (snd req) = issued (snd (_fetch url (merged_at w) 1 w1)).
Proof.
  intros Hreach. cbv zeta.
  destruct (entered_frame options w) as (_ & _ & _ & _ & _ & Hi).
  unfold attempt, call_attempt.
  destruct (tracking options w) as [t|] eqn:Ht.
  - destruct Hreach as [Hnone|[host Hu]]; [congruence|].
    rewrite (fetch_request_tracked _ _ _ host) by done. cbv zeta.
    assert (Hne : fresh (dom (heap (entered options w))) ≠ merged_at w).
    { intros Heq. apply (is_fresh (dom (heap (entered options w)))).
      rewrite Heq, entered_eq. apply elem_of_dom. unfold set_heap, heap at 1.
      rewrite lookup_insert_eq. by eexists. }
    match goal with |- context [_fetch url (merged_at w) 1 ?w1] =>
      exists w1; destruct (_fetch url (merged_at w) 1 w1) as [[?|?] ?] end.
    all: split; [exact Hi|]; split; [|by split].
    all: intros i; unfold merged; cbn [heap issued set_heap];
      by rewrite lookup_total_insert_ne, Hi.
  - exists (entered options w). split; [exact Hi|]. split; [|by split].
    intros i. by rewrite Hi.
Qed.

(** The call throws what its request throws, and returns the response of
    its request, with the accessors replaced, when the body drains. *)
Lemma fetch_ends_as_request url options w :
  let req :=
    Fetcher.fetch_request url (merged_at w) (tracking options w)
      (entered options w) in
  (∀ e, fst req = Throw e →
        fst (Fetcher.fetch fetcher url options w) = Throw e) ∧
  (∀ r b, fst req = Return (native r) → raw_body r = inl b →
          raw_id r ∉ drained w →
          fst (Fetcher.fetch fetcher url options w)
            = Return (Fetcher.buffered url (native r) b)).
Proof.
  cbv zeta. rewrite fetch_run.
  destruct (fetch_request_effects url (merged_at w) (tracking options w)
              (entered options w)) as (_ & Hd & _).
  destruct (entered_frame options w) as (_ & _ & Hd' & _). rewrite Hd' in Hd.
  destruct (Fetcher.fetch_request _ _ _ _) as [[response|e] w2]; simpl in *.
  - split; [done|]. intros r b [= ->] Hb Hfresh.
    change (buffer (native r)) with (consume r). rewrite consume_run.
    match goal with |- context [bool_decide (raw_id r ∈ drained ?w3)] =>
      assert (Hd3 : drained w3 = drained w) by (by destruct (_ >=? _));
      rewrite Hd3 end.
    rewrite bool_decide_eq_false_2 by done. by rewrite Hb.
  - split; [|done]. by intros e' [= ->].
Qed.

(** What the retrying transport does shows in the call: a timeout on the
    first request fails the call with that error after one request; a run
    of [MaxRetries] failures that are not timeouts fails it with the last
    error after [MaxRetries] requests; an answer to request number
    [MaxRetries] after such failures is returned, with the accessors
    replaced, when its body drains. *)
Lemma call_never_retries_a_timeout url options w e :
  reaches_transport url options w →
  call_attempt url options w 0 = inr e →
  e_type e = Some TimeoutErrorString →
  fst (Fetcher.fetch fetcher url options w) = Throw e ∧
  issued (snd (Fetcher.fetch fetcher url options w)) = S (issued w).
Proof.
  intros Hreach He Ht.
  destruct (request_reaches_transport url options w Hreach)
    as (w1 & Hi & Hatt & Hfst & Hiss).
  destruct (fetch_after_request url options w) as (_ & _ & _ & ->).
  rewrite <- Hatt in He.
  rewrite (_fetch_throws_at_once _ _ _ _ e) in Hfst, Hiss by auto.
  split; [by apply fetch_ends_as_request|].
  rewrite Hiss. simpl. by rewrite Hi.
Qed.

Lemma call_exhausts_MaxRetries url options w :
  reaches_transport url options w →
  1 ≤ MaxRetries →
  (∀ i, (i < Z.to_nat MaxRetries)%nat →
        fails_transiently (call_attempt url options w i)) →
  ∃ e, call_attempt url options w (Z.to_nat MaxRetries - 1) = inr e ∧
       fst (Fetcher.fetch fetcher url options w) = Throw e ∧
       issued (snd (Fetcher.fetch fetcher url options w)) =
         (issued w + Z.to_nat MaxRetries)%nat.
Proof.
  intros Hreach Hmax Hfail.
  destruct (request_reaches_transport url options w Hreach)
    as (w1 & Hi & Hatt & Hfst & Hiss).
  destruct (fetch_after_request url options w) as (_ & _ & _ & ->).
  destruct (Hfail (Z.to_nat MaxRetries - 1)%nat ltac:(lia)) as (e & He & _).
  exists e. split; [done|].
  destruct (_fetch_after_failures (Z.to_nat MaxRetries - 1) url (merged_at w)
              1 w1) as (w2 & Heq & Hi2 & Hh2).
  { lia. }
  { intros i Hlt. rewrite Hatt. apply Hfail. lia. }
  assert (Hlast : attempt url (merged_at w) w2 0 = inr e).
  { rewrite <- Hatt in He. unfold attempt in *.
    by rewrite Hi2, Hh2, Nat.add_0_r. }
  rewrite Heq, (_fetch_throws_at_once _ _ _ _ e Hlast) in Hfst, Hiss
    by (left; lia).
  split; [by apply fetch_ends_as_request|]. rewrite Hiss. simpl. lia.
Qed.

Lemma call_succeeds_on_last_try url options w r b :
  reaches_transport url options w →
  1 ≤ MaxRetries →
  (∀ i, (i < Z.to_nat MaxRetries - 1)%nat →
        fails_transiently (call_attempt url options w i)) →
  call_attempt url options w (Z.to_nat MaxRetries - 1) = inl r →
  raw_body r = inl b → raw_id r ∉ drained w →
  fst (Fetcher.fetch fetcher url options w)
    = Return (Fetcher.buffered url (native r) b) ∧
  issued (snd (Fetcher.fetch fetcher url options w)) =
    (issued w + Z.to_nat MaxRetries)%nat.
Proof.
  intros Hreach Hmax Hfail Hr Hb Hfresh.
  destruct (request_reaches_transport url options w Hreach)
    as (w1 & Hi & Hatt & Hfst & Hiss).
  destruct (fetch_after_request url options w) as (_ & _ & _ & ->).
  destruct (_fetch_after_failures (Z.to_nat MaxRetries - 1) url (merged_at w)
              1 w1) as (w2 & Heq & Hi2 & Hh2).
  { lia. }
  { intros i Hlt. rewrite Hatt. by apply Hfail. }
  assert (Hlast : attempt url (merged_at w) w2 0 = inl r).
  { rewrite <- Hatt in Hr. unfold attempt in *.
    by rewrite Hi2, Hh2, Nat.add_0_r. }
  rewrite Heq, (_fetch_returns_at_once _ _ _ _ r Hlast) in Hfst, Hiss.
  split; [by apply fetch_ends_as_request|]. rewrite Hiss. simpl. lia.
Qed.

End Bridge.

(** * Worked calls *)

Section WorkedCalls.
Import Setting Calls.

(** C2 at work: three resets in a row, three requests, and the error of the
    third. *)
Lemma _fetch_exhausts_MaxRetries_witness :
  1 ≤ MaxRetries (Constants := constants) ∧
  (∀ i, (i < 3)%nat →
     fails_transiently (K := constants)
       (attempt (Net := resetting) url caller_options startup i)) ∧
  fst (retrying resetting url caller_options 1 startup) = Throw (reset 2) ∧
  issued (snd (retrying resetting url caller_options 1 startup)) = 3%nat.
Proof.
  assert (H1 : 1 ≤ MaxRetries (Constants := constants)) by (simpl; lia).
  assert (H2 : ∀ i, (i < 3)%nat →
     fails_transiently (K := constants)
       (attempt (Net := resetting) url caller_options startup i)).
  { intros i _. eexists. split; [reflexivity|]. simpl. discriminate. }
  split; [exact H1|]. split; [exact H2|].
  destruct (_fetch_exhausts_MaxRetries (K := constants) (Net := resetting)
              (Rt := runtime) url caller_options startup H1 H2)
    as (e & He & Hthrow & Hissued).
  injection He as <-. split; [exact Hthrow|exact Hissued].
Defined.

(** The retrying transport at work: two resets, then the answer to the
    third request. *)
Lemma _fetch_succeeds_on_last_try_witness :
  let net := flaky (answer 200 "null") in
  1 ≤ MaxRetries (Constants := constants) ∧
  (∀ i, (i < 2)%nat →
     fails_transiently (K := constants)
       (attempt (Net := net) url caller_options startup i)) ∧
  attempt (Net := net) url caller_options startup 2 = inl (answer 200 "null") ∧
  fst (retrying net url caller_options 1 startup)
    = Return (native (Rt := runtime) (answer 200 "null")) ∧
  issued (snd (retrying net url caller_options 1 startup)) = 3%nat.
Proof.
  intros net.
  assert (H1 : 1 ≤ MaxRetries (Constants := constants)) by (simpl; lia).
  assert (H2 : ∀ i, (i < 2)%nat →
     fails_transiently (K := constants)
       (attempt (Net := net) url caller_options startup i)).
  { intros i Hi. destruct i as [|[|i]]; [| |lia].
    all: eexists; split; [reflexivity|]; simpl; discriminate. }
  assert (H3 : attempt (Net := net) url caller_options startup 2
               = inl (answer 200 "null")) by reflexivity.
  split; [exact H1|]. split; [exact H2|]. split; [exact H3|].
  exact (_fetch_succeeds_on_last_try (K := constants) (Net := net)
           (Rt := runtime) url caller_options startup _ H1 H2 H3).
Defined.

(** C4 at work: a timeout ends the call after one request, with three
    tries allowed. *)
Lemma _fetch_never_retries_a_timeout_witness :
  attempt (Net := stalling) url caller_options startup 0 = inr timed_out ∧
  e_type timed_out = Some (TimeoutErrorString (Constants := constants)) ∧
  fst (retrying stalling url caller_options 1 startup) = Throw timed_out ∧
  issued (snd (retrying stalling url caller_options 1 startup)) = 1%nat.
Proof.
  assert (H1 : attempt (Net := stalling) url caller_options startup 0
               = inr timed_out) by reflexivity.
  assert (H2 : e_type timed_out
               = Some (TimeoutErrorString (Constants := constants)))
    by reflexivity.
  split; [exact H1|]. split; [exact H2|].
  exact (_fetch_never_retries_a_timeout (K := constants) (Net := stalling)
           (Rt := runtime) url caller_options startup timed_out H1 H2).
Defined.

(** C10 at work: a response with status 500 is returned as it is, after one
    request; and where three requests were made, the first one had thrown. *)
Lemma _fetch_returns_any_response_witness :
  let net := answering (answer 500 "null") in
  (attempt (Net := net) url caller_options startup 0 = inl (answer 500 "null") ∧
   fst (retrying net url caller_options 1 startup)
     = Return (native (Rt := runtime) (answer 500 "null")) ∧
   status (native (Rt := runtime) (answer 500 "null")) = 500 ∧
   issued (snd (retrying net url caller_options 1 startup)) = 1%nat) ∧
  ((1 < issued (snd (retrying resetting url caller_options 1 startup)))%nat ∧
   ∃ e, attempt (Net := resetting) url caller_options startup 0 = inr e).
Proof.
  intros net. split.
  - assert (H1 : attempt (Net := net) url caller_options startup 0
                 = inl (answer 500 "null")) by reflexivity.
    split; [exact H1|].
    exact (proj1 (_fetch_returns_any_response (K := constants) (Net := net)
                    (Rt := runtime) url caller_options 1 startup) _ H1).
  - assert (H1 : (1 < issued (snd (retrying resetting url caller_options 1
                                     startup)))%nat)
      by (vm_compute; lia).
    split; [exact H1|].
    exact (proj2 (_fetch_returns_any_response (K := constants)
                    (Net := resetting) (Rt := runtime) url caller_options 1
                    startup) H1).
Defined.

(** C1 put to the test: every request times out after six seconds, the
    threshold is five. The call lasts six seconds and fails; it logs its
    error line and no warning. *)
Lemma slow_failed_call_not_warned :
  ¬ warned_whenever_slow (K := constants) (Net := stalling) (Rt := runtime)
      (P := package) url None startup.
Proof.
  unfold warned_whenever_slow. cbv zeta. intros H.
  destruct H as (added & line & Hlog & Hlines & _).
  { vm_compute. discriminate. }
  vm_compute in Hlog. subst added. vm_compute in Hlines. discriminate.
Qed.

Example stalled_call :
  let res := calling stalling url None startup in
  fst res = Throw timed_out ∧
  e_type timed_out = Some (TimeoutErrorString (Constants := constants)) ∧
  issued (snd res) = 1%nat ∧
  seconds_between startup (snd res) = 6%N ∧
  log (snd res) = [(Err, error_text url timed_out 6)].
Proof. vm_compute. done. Qed.

(** A body that takes ten seconds to arrive after a prompt answer: the call
    lasts ten seconds and returns, and there is no warning, since the time
    is taken before the body is drained. *)
Example trickling_call :
  let res := calling (trickling 200 "null") url None startup in
  (∃ response, fst res = Return response) ∧
  seconds_between startup (snd res) = 10%N ∧
  log (snd res) = [].
Proof. vm_compute. split; [by eexists|done]. Qed.

(** Two resets and then an answer, with the caller's own options: the call
    returns the answer after three requests and logs nothing. *)
Example flaky_call :
  let res :=
    calling (flaky (answer 200 "true")) url (Some caller_options) startup in
  let response := returned no_response res in
  fst res = Return response ∧
  status response = 200 ∧
  fst (json response (snd res)) = Return (JSONbool true) ∧
  issued (snd res) = 3%nat ∧
  log (snd res) = [].
Proof. vm_compute. done. Qed.

(** The transport answers 200 with the body [oops]: the call returns, the
    text is there to read, and [json()] throws. *)
Example bare_word_call :
  let res := calling (answering (answer 200 "oops")) url None startup in
  let response := returned no_response res in
  fst res = Return response ∧
  status response = 200 ∧
  fst (text response startup) = Return "oops" ∧
  fst (text response (snd res)) = Return "oops" ∧
  drained (snd res) = [7%nat] ∧
  ∃ e, fst (json response startup) = Throw e.
Proof. vm_compute. repeat split. by eexists. Qed.

(** C7 put to the test: a tracker is registered and the options do not opt
    out, but the url has no scheme. [new URL(url)] throws before the tracker
    is called, and nothing is observed. *)
Lemma unparsable_url_not_observed :
  ¬ observed_iff_tracked (K := constants)
      (Net := answering (answer 200 "null")) (Rt := runtime) (P := package)
      "api.example.com/items" None registered.
Proof.
  unfold observed_iff_tracked. cbv zeta. intros [_ H].
  destruct H as [o Ho].
  { split; [by eexists|]. vm_compute. reflexivity. }
  vm_compute in Ho. discriminate.
Qed.

Example unparsable_url_call :
  let res :=
    calling (answering (answer 200 "null")) "api.example.com/items" None
      registered in
  fst res = Throw (mkError "TypeError" None "Invalid URL") ∧
  issued (snd res) = 0%nat ∧
  observations (snd res) = [] ∧
  is_Some (metricsTracker registered) ∧
  opted_out (K := constants) None registered = false.
Proof. vm_compute. repeat split. by eexists. Qed.

(** C1 at work, tracked: the answer comes after six seconds, the threshold
    is five; one warning, with the url and the six seconds. An answer at
    once, or a request that throws after six seconds, leaves no warning. *)
Lemma slow_request_warned_once_witness :
  let net := dawdling (answer 200 "null") in
  let req := requesting net url None registered in
  let secs := seconds_between registered (snd req) in
  (fst req = Return (returned no_response req) ∧
   WarnAfterSeconds (Constants := constants) ≤ Z.of_N secs ∧
   ∃ added line,
     log (snd (calling net url None registered)) = log registered ++ added ∧
     lines Warn added = [line] ∧
     contains url line ∧ contains (pretty secs) line) ∧
  lines Warn
    (log (snd (calling (answering (answer 200 "null")) url None registered)))
    = [] ∧
  lines Warn (log (snd (calling stalling url None registered))) = [].
Proof.
  intros net req secs. split; [|split].
  - assert (H1 : fst req = Return (returned no_response req))
      by (vm_compute; reflexivity).
    assert (H2 : WarnAfterSeconds (Constants := constants) ≤ Z.of_N secs)
      by (vm_compute; discriminate).
    split; [exact H1|]. split; [exact H2|].
    destruct (slow_request_warned_once (K := constants) (Net := net)
                (Rt := runtime) (P := package) url None registered)
      as (added & Hlog & Hslow & _).
    exists added.
    destruct (Hslow _ H1 H2) as (line & Hline). exists line.
    split; [exact Hlog|exact Hline].
  - set (quick := answering (answer 200 "null")).
    destruct (slow_request_warned_once (K := constants) (Net := quick)
                (Rt := runtime) (P := package) url None registered)
      as (added & Hlog & _ & Hfast & _).
    unfold calling. rewrite Hlog. simpl.
    apply (Hfast (returned no_response (requesting quick url None registered))).
    + vm_compute. reflexivity.
    + vm_compute. reflexivity.
  - destruct (slow_request_warned_once (K := constants) (Net := stalling)
                (Rt := runtime) (P := package) url None registered)
      as (added & Hlog & _ & _ & Hthrown).
    unfold calling. rewrite Hlog. simpl.
    apply (Hthrown timed_out). vm_compute. reflexivity.
Defined.

Example slow_tracked_call :
  let res := calling (dawdling (answer 200 "null")) url None registered in
  log (snd res) = [(Warn, warning_text url 6)] ∧
  length (observations (snd res)) = 1%nat.
Proof. vm_compute. done. Qed.

(** C6 at work: status 200, body [oops]; the call returns and [json()]
    throws an error that names the url, the status and the body. *)
Lemma json_failure_is_descriptive_witness :
  let res := calling (answering (answer 200 "oops")) url None startup in
  let response := returned no_response res in
  res = (Return response, snd res) ∧
  fst (buffer response (snd res)) = Return (String.list_byte_of_string "oops") ∧
  JSON_parse (Runtime := runtime) "oops"
    = inr (mkError "SyntaxError" None "Unexpected token in JSON") ∧
  ∃ err,
    json response startup = (Throw err, startup) ∧
    contains url (e_message err) ∧
    contains "200" (e_message err) ∧
    contains "oops" (e_message err).
Proof.
  intros res response.
  assert (H1 : res = (Return response, snd res)) by (vm_compute; reflexivity).
  assert (H2 : fst (buffer response (snd res))
               = Return (String.list_byte_of_string "oops"))
    by (vm_compute; reflexivity).
  assert (H3 : JSON_parse (Runtime := runtime) "oops"
               = inr (mkError "SyntaxError" None "Unexpected token in JSON"))
    by reflexivity.
  split; [exact H1|]. split; [exact H2|]. split; [exact H3|].
  exact (json_failure_is_descriptive (K := constants)
           (Net := answering (answer 200 "oops")) (Rt := runtime)
           (P := package) url None startup response (snd res) _ _
           H1 H2 H3 startup).
Defined.

(** C7 at work: with a tracker, no opt-out and a url that parses, one
    observation; with [skipTrackRequest] set, none; before registration,
    none, and the call returns. *)
Lemma observed_iff_tracked_and_parsed_witness :
  let net := answering (answer 200 "null") in
  (is_Some (metricsTracker registered) ∧
   opted_out (K := constants) None registered = false ∧
   (∃ host, URL_host (Runtime := runtime) url = inl host) ∧
   length (observations (snd (calling net url None registered))) = 1%nat) ∧
  (metricsTracker startup = None ∧
   observations (snd (calling net url None startup)) = [] ∧
   fst (calling net url None startup)
     = Return (Fetcher.buffered (Rt := runtime) url
                 (native (Rt := runtime) (answer 200 "null"))
                 (String.list_byte_of_string "null"))).
Proof.
  intros net. split.
  - assert (H1 : is_Some (metricsTracker registered)) by (by eexists).
    assert (H2 : opted_out (K := constants) None registered = false)
      by (vm_compute; reflexivity).
    assert (H3 : ∃ host, URL_host (Runtime := runtime) url = inl host)
      by (by eexists).
    split; [exact H1|]. split; [exact H2|]. split; [exact H3|].
    destruct (observed_iff_tracked_and_parsed (K := constants) (Net := net)
                (Rt := runtime) (P := package) url None registered)
      as (seen & Hobs & _ & Hiff & _).
    unfold calling. rewrite Hobs. simpl.
    apply Hiff. split; [exact H1|]. split; [exact H2|exact H3].
  - assert (H1 : metricsTracker startup = None) by reflexivity.
    split; [exact H1|].
    destruct (observed_iff_tracked_and_parsed (K := constants) (Net := net)
                (Rt := runtime) (P := package) url None startup)
      as (seen & Hobs & _ & _ & _ & Hbare).
    destruct (Hbare H1) as (-> & _ & Hret).
    split; [exact Hobs|].
    apply Hret; [vm_compute; reflexivity|reflexivity|].
    simpl. apply not_elem_of_nil.
Defined.

(** A tracked call with the caller's own method: the one observation
    carries the host, the method and the status code. *)
Example tracked_call_labels :
  let res :=
    calling (answering (answer 200 "null")) url (Some caller_options)
      registered in
  (λ o, (o_metric o, o_labels o)) <$> observations (snd res)
  = [("external_http_request_duration_seconds",
      {[ "target" := JStr "api.example.com";
         "method" := JStr "POST";
         "statusCode" := JNum 200 ]})].
Proof. vm_compute. reflexivity. Qed.

Example opted_out_call :
  let w := snd (alloc {[ "skipTrackRequest" := JBool true ]} registered) in
  let options := Some (fresh (dom (heap registered))) in
  let res := calling (answering (answer 200 "null")) url options w in
  is_Some (metricsTracker w) ∧
  opted_out (K := constants) options w = true ∧
  observations (snd res) = [] ∧
  ∃ response, fst res = Return response.
Proof. vm_compute. repeat split; by eexists. Qed.

(** C8 at work: the request times out after six seconds; the call throws
    that very error and has written one error line; and what the call threw,
    its [try] block had thrown. *)
Lemma fetch_logs_and_rethrows_witness :
  let try_block := trying stalling url None startup in
  try_block = (Throw timed_out, snd try_block) ∧
  calling stalling url None startup
    = (Throw timed_out,
       write_log Err (error_text url timed_out 6) (snd try_block)) ∧
  lines Err (log (snd (calling stalling url None startup)))
    = [error_text url timed_out 6] ∧
  ∃ w2, try_block = (Throw timed_out, w2).
Proof.
  intros try_block.
  assert (H1 : try_block = (Throw timed_out, snd try_block))
    by (vm_compute; reflexivity).
  split; [exact H1|].
  destruct (fetch_logs_and_rethrows (K := constants) (Net := stalling)
              (Rt := runtime) (P := package) url None startup)
    as (Hforth & Hback).
  destruct (Hforth timed_out (snd try_block) H1)
    as (line & Hcall & Hlines & _).
  assert (Hline : line = error_text url timed_out 6).
  { assert (Hl : log (snd (calling stalling url None startup))
                 = log (write_log Err line (snd try_block)))
      by (unfold calling; rewrite Hcall; reflexivity).
    vm_compute in Hl. injection Hl as <-. vm_compute. reflexivity. }
  subst line. split; [exact Hcall|]. split.
  - unfold calling. rewrite Hcall. exact Hlines.
  - exact (Hback timed_out _ Hcall).
Defined.

(** C9 at work: the caller's options hold [method: POST]; the merged
    options are a new object with that method, and the caller's object is as
    it was when the call is over. *)
Lemma fetch_leaves_caller_options_witness :
  let net := answering (answer 200 "null") in
  let mine : Obj := {[ "method" := JStr "POST" ]} in
  heap startup !! caller_options = Some mine ∧
  merged (K := constants) (Some caller_options) startup
    = mine ∪ DefaultRequestOptions (Constants := constants) ∧
  merged_at startup ≠ caller_options ∧
  heap (snd (calling net url (Some caller_options) startup)) !! caller_options
    = Some mine.
Proof.
  intros net mine.
  assert (H1 : heap startup !! caller_options = Some mine) by reflexivity.
  split; [exact H1|].
  destruct (fetch_leaves_caller_options (K := constants) (Net := net)
              (Rt := runtime) (P := package) url (Some caller_options) startup)
    as (Hfresh & _ & Hmerged & _ & Hkept).
  split; [exact (Hmerged _ _ eq_refl H1)|].
  split; [|exact (proj2 (Hkept _ _ H1))].
  intros Heq. apply Hfresh. rewrite Heq. apply elem_of_dom. by eexists.
Defined.

End WorkedCalls.

(** * Further properties *)

(** ** The retrying transport, in general *)

Section RetryingMore.
Context `{K : Constants} `{Net : Network} `{Rt : Runtime}.

Lemma _fetch_issues_within url options retries w :
  (issued w < issued (snd (_fetch url options retries w))
   ≤ issued w + S (Z.to_nat (MaxRetries - retries)))%nat.
Proof.
  remember (Z.to_nat (MaxRetries - retries)) as n eqn:Hn.
  revert retries w Hn. induction n as [n IH] using lt_wf_ind.
  intros retries w Hn. rewrite _fetch_body.
  pose proof (fetch_world url options w) as Hw.
  destruct (fetch url options w) as [[result|err] w1]; simpl in Hw; subst w1.
  - simpl. lia.
  - destruct ((retries <? MaxRetries) && not_timeout err) eqn:E.
    + apply andb_prop in E as [Hlt _]. apply Z.ltb_lt in Hlt.
      match goal with |- context [_fetch _ _ ?r ?w1] =>
        pose proof (IH (Z.to_nat (MaxRetries - r)) ltac:(lia) r w1 eq_refl)
          as Hrec end.
      simpl in Hrec. lia.
    + simpl. lia.
Qed.

(** X1. A call of [_fetch] hands at least one request to the transport and
    never more than the counter leaves room for: [MaxRetries - retries + 1]
    requests, and a single one when the counter has already reached the
    ceiling. *)
Theorem _fetch_request_bound url options retries w :
  let made := (issued (snd (_fetch url options retries w)) - issued w)%nat in
  (1 ≤ made)%nat ∧ Z.of_nat made ≤ Z.max 1 (MaxRetries - retries + 1).
Proof.
  cbv zeta. pose proof (_fetch_issues_within url options retries w). lia.
Qed.

(** X2. After [j] failures that are not timeouts, with the ceiling not yet
    reached, the next outcome decides when it is a response or a timeout:
    the response is returned, the timeout is thrown, after [j + 1] requests
    in all. *)
Theorem _fetch_stops_at_first_decisive_outcome url options w (j : nat) :
  1 + Z.of_nat j ≤ MaxRetries →
  (∀ i, (i < j)%nat → fails_transiently (attempt url options w i)) →
  (∀ r, attempt url options w j = inl r →
        fst (_fetch url options 1 w) = Return (native r) ∧
        issued (snd (_fetch url options 1 w)) = (issued w + S j)%nat) ∧
  (∀ e, attempt url options w j = inr e →
        e_type e = Some TimeoutErrorString →
        fst (_fetch url options 1 w) = Throw e ∧
        issued (snd (_fetch url options 1 w)) = (issued w + S j)%nat).
Proof.
  intros Hroom Hfail.
  destruct (_fetch_after_failures j url options 1 w Hroom Hfail)
    as (w1 & -> & Hi & Hh).
  assert (Hat : attempt url options w1 0 = attempt url options w j).
  { unfold attempt. by rewrite Hi, Hh, Nat.add_0_r. }
  split.
  - intros r Hr. rewrite <- Hat in Hr.
    rewrite (_fetch_returns_at_once _ _ _ _ r Hr). simpl. split; [done|lia].
  - intros e He Ht. rewrite <- Hat in He.
    rewrite (_fetch_throws_at_once _ _ _ _ e He) by auto.
    simpl. split; [done|lia].
Qed.

(** X3. The retrying transport works in silence: a call of [_fetch], however
    many requests it makes, writes no log line, records no observation,
    reads no body, leaves every object and the tracker as they are, and the
    clock does not go back. *)
Theorem _fetch_retries_in_silence url options retries w :
  let w' := snd (_fetch url options retries w) in
  log w' = log w ∧ observations w' = observations w ∧
  drained w' = drained w ∧ heap w' = heap w ∧
  metricsTracker w' = metricsTracker w ∧ (now w ≤ now w')%N.
Proof.
  pose proof (_fetch_frame url options retries w) as H. cbv zeta in H |- *.
  destruct H as (? & ? & ? & ? & ? & ? & _). done.
Qed.

End RetryingMore.

(** ** Merged options *)

Section MergingMore.
Context `{K : Constants} `{Net : Network} `{Rt : Runtime} `{P : MetricsPackage}.

Lemma merged_of_object l o w :
  heap w !! l = Some o → merged (Some l) w = o ∪ DefaultRequestOptions.
Proof.
  intros Hl. unfold merged. rewrite entered_eq. cbn [heap set_heap].
  rewrite lookup_total_insert_eq, lookup_total_insert_ne.
  - by rewrite (lookup_total_correct _ _ _ Hl).
  - intros <-. apply (is_fresh (dom (heap w))). by apply elem_of_dom.
Qed.

Lemma merged_of_undefined w : merged None w = DefaultRequestOptions.
Proof.
  unfold merged. rewrite entered_eq. cbn [heap set_heap].
  by rewrite lookup_total_insert_eq, (left_id_L ∅ (∪)).
Qed.

Lemma merged_is_allocated options w :
  heap (entered options w) !! merged_at w = Some (merged options w).
Proof.
  unfold merged. rewrite entered_eq. cbn [heap set_heap].
  by rewrite lookup_insert_eq, lookup_total_insert_eq.
Qed.

(** X4. Reading a property of the options that [_setDefaultOptions] has
    merged gives the caller's own property whenever the caller's object has
    the key, even with the value [undefined], and the default otherwise;
    without options every property is the default. *)
Theorem merged_property_by_key key w :
  (∀ l o, heap w !! l = Some o →
     fst (get_prop (merged_at w) key (entered (Some l) w)) =
     Return (default JUndefined
               (match o !! key with
                | Some v => Some v
                | None => DefaultRequestOptions !! key
                end))) ∧
  fst (get_prop (merged_at w) key (entered None w)) =
  Return (default JUndefined (DefaultRequestOptions !! key)).
Proof.
  split.
  - intros l o Hl. unfold get_prop, gets. cbn [fst].
    fold (merged (Some l) w). rewrite (merged_of_object l o w Hl).
    rewrite lookup_union. by destruct (o !! key), (DefaultRequestOptions !! key).
  - unfold get_prop, gets. cbn [fst]. fold (merged None w).
    by rewrite merged_of_undefined.
Qed.

(** X5. Merging is idempotent: options that are themselves the outcome of a
    merge come out of a second merge with the same properties. *)
Theorem merging_twice_changes_nothing options w :
  merged (Some (merged_at w)) (entered options w) = merged options w.
Proof.
  rewrite (merged_of_object _ _ _ (merged_is_allocated options w)).
  apply map_eq. intros key. rewrite lookup_union.
  destruct options as [l|].
  - unfold merged at 1 2. rewrite entered_eq. cbn [heap set_heap].
    rewrite lookup_total_insert_eq, lookup_union.
    by destruct (_ !! key), (DefaultRequestOptions !! key).
  - rewrite merged_of_undefined. by destruct (DefaultRequestOptions !! key).
Qed.

(** X6. The merged options belong to one call: once merged, the object keeps
    its properties until the call has returned or thrown, and the next call
    merges into another object. *)
Theorem merged_options_are_per_call url options w :
  let w' := snd (Fetcher.fetch fetcher url options w) in
  heap w' !! merged_at w = Some (merged options w) ∧
  merged_at w' ≠ merged_at w.
Proof.
  cbv zeta.
  assert (Hkept : heap (snd (Fetcher.fetch fetcher url options w))
                    !! merged_at w = Some (merged options w)).
  { destruct (fetch_after_request url options w) as (-> & _).
    destruct (fetch_request_effects url (merged_at w) (tracking options w)
                (entered options w)) as (_ & _ & _ & _ & Hheap & _).
    apply Hheap, merged_is_allocated. }
  split; [done|]. intros Heq.
  apply (is_fresh (dom (heap (snd (Fetcher.fetch fetcher url options w))))).
  fold (merged_at (snd (Fetcher.fetch fetcher url options w))).
  rewrite Heq. apply elem_of_dom. by eexists.
Qed.

End MergingMore.

(** ** The whole call, in general *)

Section CallMore.
Context `{K : Constants} `{Net : Network} `{Rt : Runtime} `{P : MetricsPackage}.

(** The call once its request has returned a response of the transport that
    was not read before. *)
Lemma fetch_run_returned url options w r w2 :
  Fetcher.fetch_request url (merged_at w) (tracking options w)
    (entered options w) = (Return (native r), w2) →
  raw_id r ∉ drained w →
  let secs := seconds_between w w2 in
  let w3 :=
    if Z.of_N secs >=? WarnAfterSeconds
    then write_log Warn (warning_text url secs) w2 else w2 in
  let w4 := tick (raw_body_nanos r) (mark_drained (raw_id r) w3) in
  Fetcher.fetch fetcher url options w =
  match raw_body r with
  | inl b => (Return (Fetcher.buffered url (native r) b), w4)
  | inr e =>
      (Throw e, write_log Err (error_text url e (seconds_between w w4)) w4)
  end.
Proof.
  intros Hreq Hfresh. cbv zeta. rewrite fetch_run.
  destruct (fetch_request_effects url (merged_at w) (tracking options w)
              (entered options w)) as (_ & Hd & _).
  destruct (entered_frame options w) as (_ & _ & Hd' & _).
  rewrite Hreq in Hd |- *. cbn [snd] in Hd. rewrite Hd' in Hd. cbv zeta.
  change (buffer (native r)) with (consume r). rewrite consume_run.
  match goal with |- context [bool_decide (raw_id r ∈ drained ?w3)] =>
    assert (Hd3 : drained w3 = drained w)
      by (destruct (_ >=? _); simpl; congruence);
    rewrite Hd3 end.
  rewrite bool_decide_eq_false_2 by done. by destruct (raw_body r).
Qed.

(** X7. The body is always drained: when the request of a call returns a
    response, the call reads that body once, whether the reading succeeds or
    fails and whether or not the caller ever asks for it; when the request
    throws, no body is read. *)
Theorem fetch_always_drains url options w :
  let req :=
    Fetcher.fetch_request url (merged_at w) (tracking options w)
      (entered options w) in
  let w' := snd (Fetcher.fetch fetcher url options w) in
  (∀ r, fst req = Return (native r) → raw_id r ∉ drained w →
        drained w' = drained w ++ [raw_id r]) ∧
  (∀ e, fst req = Throw e → drained w' = drained w).
Proof.
  cbv zeta. split.
  - intros r Hr Hfresh.
    destruct (fetch_request_effects url (merged_at w) (tracking options w)
                (entered options w)) as (_ & Hd & _).
    destruct (entered_frame options w) as (_ & _ & Hd' & _).
    destruct (Fetcher.fetch_request _ _ _ _) as [res w2] eqn:Hreq.
    simpl in Hr, Hd. subst res.
    rewrite (fetch_run_returned _ _ _ _ _ Hreq Hfresh).
    assert (Hd3 : drained w2 = drained w) by congruence.
    destruct (raw_body r); simpl; destruct (_ >=? _); simpl; by rewrite Hd3.
  - intros e He. rewrite fetch_run.
    destruct (fetch_request_effects url (merged_at w) (tracking options w)
                (entered options w)) as (_ & Hd & _).
    destruct (entered_frame options w) as (_ & _ & Hd' & _).
    destruct (Fetcher.fetch_request _ _ _ _) as [res w2].
    simpl in He, Hd. subst res. simpl. congruence.
Qed.

(** X8. A body that fails to arrive fails the call: the call throws the
    error of the body stream and writes its error line; when the response
    itself had come late, the warning stands before that line. *)
Theorem drain_failure_fails_the_call url options w r e :
  let req :=
    Fetcher.fetch_request url (merged_at w) (tracking options w)
      (entered options w) in
  let res := Fetcher.fetch fetcher url options w in
  fst req = Return (native r) → raw_id r ∉ drained w → raw_body r = inr e →
  fst res = Throw e ∧
  log (snd res) =
    log w ++
    (if Z.of_N (seconds_between w (snd req)) >=? WarnAfterSeconds
     then [(Warn, warning_text url (seconds_between w (snd req)))] else []) ++
    [(Err, error_text url e (seconds_between w (snd res)))].
Proof.
  cbv zeta. intros Hr Hfresh Hbody.
  destruct (fetch_request_effects url (merged_at w) (tracking options w)
              (entered options w)) as (Hlog & _).
  destruct (Fetcher.fetch_request _ _ _ _) as [res w2] eqn:Hreq.
  simpl in Hr, Hlog. subst res.
  rewrite (fetch_run_returned _ _ _ _ _ Hreq Hfresh), Hbody.
  split; [done|]. simpl.
  destruct (_ >=? _); simpl; rewrite Hlog; by rewrite <- ?app_assoc.
Qed.

(** X9. A call writes at most one warning and at most one error line, the
    warning first, and the error line is there exactly when the call
    throws. *)
Theorem fetch_log_shape url options w :
  let res := Fetcher.fetch fetcher url options w in
  ∃ warned failed,
    log (snd res) = log w ++ warned ++ failed ∧
    (warned = [] ∨ ∃ msg, warned = [(Warn, msg)]) ∧
    match fst res with
    | Return _ => failed = []
    | Throw _ => ∃ msg, failed = [(Err, msg)]
    end.
Proof.
  cbv zeta. destruct (fetch_log url options w) as (failed & Hlog & Hfailed).
  cbv zeta in Hlog, Hfailed. eexists _, failed. split; [exact Hlog|].
  split; [|done]. destruct (fst (Fetcher.fetch_request _ _ _ _)); [|by left].
  destruct (_ >=? _); eauto.
Qed.

(** X10. The status code does not decide the fate of a call: when the first
    request is answered, whatever the status, and the body arrives, the
    call returns the response with that status after this one request and
    writes no error line. *)
Theorem fetch_returns_any_status url options w r b :
  reaches_transport url options w →
  call_attempt url options w 0 = inl r →
  raw_body r = inl b → raw_id r ∉ drained w →
  let res := Fetcher.fetch fetcher url options w in
  fst res = Return (Fetcher.buffered url (native r) b) ∧
  status (Fetcher.buffered url (native r) b) = raw_status r ∧
  issued (snd res) = S (issued w) ∧
  lines Err (log (snd res)) = lines Err (log w).
Proof.
  intros Hreach Hr Hb Hfresh. cbv zeta.
  destruct (request_reaches_transport url options w Hreach)
    as (w1 & Hi & Hatt & Hfst & Hiss).
  destruct (fetch_after_request url options w) as (_ & _ & _ & Hissued).
  rewrite <- Hatt in Hr.
  rewrite (_fetch_returns_at_once _ _ _ _ r Hr) in Hfst, Hiss.
  assert (Hret : fst (Fetcher.fetch fetcher url options w)
                 = Return (Fetcher.buffered url (native r) b))
    by (by apply fetch_ends_as_request).
  split; [done|]. split; [done|]. split.
  - rewrite Hissued, Hiss. simpl. by rewrite Hi.
  - destruct (fetch_log url options w) as (failed & Hlog & Hfailed).
    cbv zeta in Hlog, Hfailed. rewrite Hret in Hfailed. subst failed.
    rewrite Hlog, app_nil_r, lines_app.
    destruct (fst (Fetcher.fetch_request _ _ _ _));
      [destruct (_ >=? _)|]; simpl; by rewrite app_nil_r.
Qed.

(** X11. A call never hands more than [MaxRetries] requests to the
    transport (one where [MaxRetries] is less than one), and none at all
    when it is tracked and its url does not parse. *)
Theorem fetch_request_budget url options w :
  let made :=
    (issued (snd (Fetcher.fetch fetcher url options w)) - issued w)%nat in
  Z.of_nat made ≤ Z.max 1 MaxRetries ∧
  (∀ t e, tracking options w = Some t → URL_host url = inr e →
          made = 0%nat).
Proof.
  cbv zeta.
  destruct (fetch_after_request url options w) as (_ & _ & _ & ->).
  destruct (entered_frame options w) as (_ & _ & _ & _ & _ & Hi).
  assert (Hnone : ∀ t e, tracking options w = Some t → URL_host url = inr e →
    issued (snd (Fetcher.fetch_request url (merged_at w) (tracking options w)
                   (entered options w))) = issued w).
  { intros t e Ht Hu.
    by rewrite Ht, (fetch_request_invalid_url _ _ _ e _ Hu). }
  split.
  - destruct (tracking options w) as [t|] eqn:Ht.
    + destruct (URL_host url) as [host|e] eqn:Hu.
      * destruct (request_reaches_transport url options w) as
          (w1 & Hi1 & _ & _ & Hiss).
        { right. by exists host. }
        rewrite Ht in Hiss. rewrite Hiss.
        pose proof (_fetch_issues_within url (merged_at w) 1 w1). lia.
      * rewrite (Hnone t e eq_refl eq_refl). lia.
    + destruct (request_reaches_transport url options w) as
        (w1 & Hi1 & _ & _ & Hiss).
      { left. done. }
      rewrite Ht in Hiss. rewrite Hiss.
      pose proof (_fetch_issues_within url (merged_at w) 1 w1). lia.
  - intros t e Ht Hu. rewrite (Hnone t e Ht Hu). lia.
Qed.

(** X12. The error that [json()] of a returned response throws is a plain
    [Error] built afresh: it carries no [type] tag, and its message ends
    with the text of the parse error itself. *)
Theorem json_failure_wraps_parse_error url options w response w' bytes e :
  Fetcher.fetch fetcher url options w = (Return response, w') →
  fst (buffer response w') = Return bytes →
  JSON_parse (Buffer_toString bytes) = inr e →
  ∀ w2, ∃ err,
    fst (json response w2) = Throw err ∧
    e_name err = "Error" ∧ e_type err = None ∧
    ∃ before, e_message err = before +:+ Error_toString e.
Proof.
  intros Hret Hb Hparse w2.
  destruct (fetch_returns_inv _ _ _ _ _ Hret) as (r & b & -> & _).
  simpl in Hb. injection Hb as ->.
  rewrite json_of_buffered, Hparse. eexists. split; [done|].
  split; [done|]. split; [done|]. cbn [e_message].
  eexists. rewrite <- !append_assoc. reflexivity.
Qed.

End CallMore.

(** ** Tracked calls *)

Section TrackingMore.
Context `{K : Constants} `{Net : Network} `{Rt : Runtime} `{P : MetricsPackage}.

(** What a tracked request whose url parses adds to the observations. *)
Lemma fetch_request_observed url m t host w :
  URL_host url = inl host →
  let req := Fetcher.fetch_request url m (Some t) w in
  let base : Obj :=
    <[Labels_Method :=
        js_or (default JUndefined ((heap w !!! m) !! "method"))
              (JStr DefaultValues_Method)]>
      {[Labels_Target := JStr host]} in
  observations (snd req) =
  observations w ++
  [mkObservation ExternalHttpRequestDurationSeconds
     match fst req with
     | Return result => <[Labels_StatusCode := JNum (status result)]> base
     | Throw err => <[Labels_Error := errorLabel err]> base
     end
     (now (snd req) - now w)].
Proof.
  intros Hu. cbv zeta. rewrite (fetch_request_tracked _ _ _ host) by done.
  cbv zeta.
  match goal with |- context [_fetch url m 1 ?w1] =>
    pose proof (_fetch_frame url m 1 w1) as Hf;
    destruct (_fetch url m 1 w1) as [[result|err] w2] end.
  all: cbv zeta in Hf; cbn [snd] in Hf;
    destruct Hf as (Hh & _ & _ & Hobs & _).
  all: cbn [fst snd observations record_observation set_heap heap now] in *.
  all: by rewrite Hobs, Hh, lookup_total_alter_eq, lookup_insert_eq.
Qed.

(** X13. The one observation of a tracked call whose request returns a
    response is recorded for the duration histogram, with the host of the
    url as target, the method of the merged options (the default method
    when that is missing or falsy) and the status code of the response, and
    with the time the request took. *)
Theorem tracked_observation_labels url options w t host response :
  let req :=
    Fetcher.fetch_request url (merged_at w) (tracking options w)
      (entered options w) in
  tracking options w = Some t →
  URL_host url = inl host →
  fst req = Return response →
  observations (snd (Fetcher.fetch fetcher url options w)) =
  observations w ++
  [mkObservation ExternalHttpRequestDurationSeconds
     (<[Labels_StatusCode := JNum (status response)]>
        (<[Labels_Method :=
             js_or (default JUndefined (merged options w !! "method"))
                   (JStr DefaultValues_Method)]>
           {[Labels_Target := JStr host]}))
     (now (snd req) - now w)].
Proof.
  cbv zeta. intros Ht Hu Hret.
  destruct (fetch_after_request url options w) as (_ & -> & _).
  destruct (entered_frame options w) as (_ & Hnow & _ & Hobs & _).
  rewrite Ht in Hret |- *.
  pose proof (fetch_request_observed url (merged_at w) t host
                (entered options w) Hu) as Hseen.
  cbv zeta in Hseen. rewrite Hret, Hobs, Hnow in Hseen. exact Hseen.
Qed.

(** X14. The histogram that [collectDefaultMetrics] registers fits what
    [fetch] observes. Registration stores a tracker and touches nothing
    else; every observation of a later call is recorded under the name of
    the registered histogram, and every label it carries is among the label
    names the histogram was declared with. *)
Theorem registered_histogram_fits_observations url options w :
  let w1 := snd (collectDefaultMetrics w) in
  let w' := snd (Fetcher.fetch fetcher url options w1) in
  ∃ t h seen,
    metricsTracker w1 = Some t ∧
    metrics t !! ExternalHttpRequestDurationSeconds = Some h ∧
    h_labelNames h =
      [Labels_Target; Labels_Method; Labels_StatusCode; Labels_Error] ∧
    (heap w1 = heap w ∧ log w1 = log w ∧ observations w1 = observations w ∧
     issued w1 = issued w ∧ drained w1 = drained w ∧ now w1 = now w) ∧
    observations w' = observations w ++ seen ∧
    ∀ o, o ∈ seen →
      metrics t !! o_metric o = Some h ∧
      ∀ key, is_Some (o_labels o !! key) → key ∈ h_labelNames h.
Proof.
  cbv zeta. set (w1 := snd (collectDefaultMetrics w)).
  destruct (metricsTracker w1) as [t|] eqn:Ht; [|done].
  assert (Hm : metrics t !! ExternalHttpRequestDurationSeconds
               = Some (mkHistogram ExternalHttpRequestDurationSeconds
                   ("duration histogram of http responses labeled with: " +:+
                    String.concat ", "
                      [Labels_Target; Labels_Method; Labels_StatusCode;
                       Labels_Error])
                   [Labels_Target; Labels_Method; Labels_StatusCode;
                    Labels_Error]
                   HistogramValues_Buckets)).
  { injection Ht as <-. cbn [metrics]. by rewrite lookup_singleton_eq. }
  eexists t, _. 
  destruct (fetch_after_request url options w1) as (_ & Ho & _).
  cbv zeta in Ho.
  destruct (entered_frame options w1) as (_ & _ & _ & Hobs & _).
  destruct (tracking options w1) as [t'|] eqn:Htr;
    [destruct (URL_host url) as [host|e] eqn:Hu|].
  - pose proof (fetch_request_observed url (merged_at w1) t' host
                  (entered options w1) Hu) as Hseen.
    cbv zeta in Hseen. rewrite Hobs in Hseen.
    eexists [_]. split; [done|]. split; [exact Hm|]. split; [done|].
    split; [done|]. split; [rewrite Ho; exact Hseen|].
    intros o ->%list_elem_of_singleton. cbn [o_metric o_labels].
    split; [exact Hm|]. intros key [v Hv]. cbn [h_labelNames].
    destruct (fst (Fetcher.fetch_request _ _ _ _)).
    all: apply lookup_insert_Some in Hv as [[<- _]|[_ Hv]];
      [set_solver|].
    all: apply lookup_insert_Some in Hv as [[<- _]|[_ Hv]];
      [set_solver|].
    all: apply lookup_singleton_Some in Hv as [<- _]; set_solver.
  - exists []. split; [done|]. split; [exact Hm|]. split; [done|].
    split; [done|]. split.
    + rewrite Ho, (fetch_request_invalid_url _ _ _ e _ Hu). simpl.
      by rewrite app_nil_r.
    + intros o Ho'. by apply elem_of_nil in Ho'.
  - exists []. split; [done|]. split; [exact Hm|]. split; [done|].
    split; [done|]. split.
    + rewrite Ho.
      destruct (fetch_request_effects url (merged_at w1) None
                  (entered options w1)) as (_ & _ & _ & _ & _ & _ & seen & Hs & Hl).
      apply nil_length_inv in Hl. subst seen. rewrite Hs, Hobs. done.
    + intros o Ho'. by apply elem_of_nil in Ho'.
Qed.

End TrackingMore.

(** ** Tracking and the outcome *)

Section Transparency.
Context `{K : Constants} `{Net : Network} `{Rt : Runtime} `{P : MetricsPackage}.

(** Two worlds that have issued the same number of requests, show the same
    time and hold the same options make [_fetch] do the same. *)
Lemma _fetch_agree url options retries w v :
  issued w = issued v → now w = now v →
  heap w !!! options = heap v !!! options →
  fst (_fetch url options retries w) = fst (_fetch url options retries v) ∧
  issued (snd (_fetch url options retries w))
    = issued (snd (_fetch url options retries v)) ∧
  now (snd (_fetch url options retries w))
    = now (snd (_fetch url options retries v)).
Proof.
  remember (Z.to_nat (MaxRetries - retries)) as n eqn:Hn.
  revert retries w v Hn. induction n as [n IH] using lt_wf_ind.
  intros retries w v Hn Hi Ht Hh. rewrite !_fetch_body. unfold fetch.
  cbv zeta. rewrite <- Hi, <- Hh.
  destruct (outcome (wire (issued w) url (heap w !!! options))) as [r|err].
  - simpl. by rewrite Ht, Hi.
  - destruct ((retries <? MaxRetries) && not_timeout err) eqn:E.
    + apply andb_prop in E as [Hlt _]. apply Z.ltb_lt in Hlt.
      eapply IH; [|reflexivity|simpl..]; [lia|congruence|congruence|done].
    + simpl. by rewrite Ht, Hi.
Qed.

(** X15. Tracking is transparent. Where the url parses, a call returns or
    throws the same with a tracker registered as without one, after the
    same requests, with the same lines in the log and the same body
    read. *)
Theorem tracking_is_transparent url options w :
  (∃ host, URL_host url = inl host) →
  let tracked := Fetcher.fetch fetcher url options w in
  let plain := Fetcher.fetch fetcher url options (set_metricsTracker None w) in
  fst tracked = fst plain ∧
  issued (snd tracked) = issued (snd plain) ∧
  log (snd tracked) = log (snd plain) ∧
  drained (snd tracked) = drained (snd plain) ∧
  now (snd tracked) = now (snd plain).
Proof.
  intros [host Hu]. cbv zeta. set (v := set_metricsTracker None w).
  assert (Hnone : tracking options v = None).
  { unfold tracking. cbn [metricsTracker v set_metricsTracker].
    by destruct (negb _). }
  rewrite !fetch_run, Hnone.
  change (merged_at v) with (merged_at w).
  change (Fetcher.fetch_request url (merged_at w) None (entered options v))
    with (_fetch url (merged_at w) 1 (entered options v)).
  change (seconds_between v) with (seconds_between w).
  (* the request ends alike on both sides *)
  assert (Hreq :
    let req := Fetcher.fetch_request url (merged_at w) (tracking options w)
                 (entered options w) in
    let bare := _fetch url (merged_at w) 1 (entered options v) in
    fst req = fst bare ∧ issued (snd req) = issued (snd bare) ∧
    now (snd req) = now (snd bare) ∧ log (snd req) = log (snd bare) ∧
    drained (snd req) = drained (snd bare)).
  { cbv zeta.
    destruct (fetch_request_effects url (merged_at w) (tracking options w)
                (entered options w)) as (Hl & Hd & _).
    pose proof (_fetch_frame url (merged_at w) 1 (entered options v)) as Hf.
    cbv zeta in Hf. destruct Hf as (_ & Hd' & Hl' & _).
    assert (Hld : log (snd (Fetcher.fetch_request url (merged_at w)
                              (tracking options w) (entered options w)))
                  = log (snd (_fetch url (merged_at w) 1 (entered options v)))
                ∧ drained (snd (Fetcher.fetch_request url (merged_at w)
                              (tracking options w) (entered options w)))
                  = drained (snd (_fetch url (merged_at w) 1
                                    (entered options v)))).
    { rewrite Hl, Hd, Hl', Hd'. rewrite !entered_eq. done. }
    destruct Hld as (Hlog & Hdr).
    destruct (tracking options w) as [t|] eqn:Ht.
    - rewrite (fetch_request_tracked _ _ _ host) in Hlog, Hdr |- * by done.
      cbv zeta in Hlog, Hdr |- *.
      match goal with |- context [_fetch url (merged_at w) 1 ?w1] =>
        destruct (_fetch_agree url (merged_at w) 1 w1 (entered options v))
          as (Hf1 & Hf2 & Hf3) end.
      { by rewrite !entered_eq. }
      { by rewrite !entered_eq. }
      { cbn [heap set_heap]. rewrite lookup_total_insert_ne.
        - by rewrite !entered_eq.
        - intros Heq. apply (is_fresh (dom (heap (entered options w)))).
          rewrite Heq, entered_eq. apply elem_of_dom.
          cbn [heap set_heap]. rewrite lookup_insert_eq. by eexists. }
      match goal with |- context [_fetch url (merged_at w) 1 ?w1] =>
        destruct (_fetch url (merged_at w) 1 w1) as [[?|?] ?] end.
      all: cbn [fst snd] in *; repeat split; try done.
    - change (Fetcher.fetch_request url (merged_at w) None (entered options w))
        with (_fetch url (merged_at w) 1 (entered options w)) in *.
      destruct (_fetch_agree url (merged_at w) 1 (entered options w)
                  (entered options v)) as (Hf1 & Hf2 & Hf3);
        [by rewrite !entered_eq..|].
      repeat split; done. }
  cbv zeta in Hreq.
  destruct (fetch_request_effects url (merged_at w) (tracking options w)
              (entered options w)) as (_ & _ & _ & _ & _ & Hnative & _).
  destruct (Fetcher.fetch_request url (merged_at w) (tracking options w)
              (entered options w)) as [[response|e] w2];
    destruct (_fetch url (merged_at w) 1 (entered options v))
      as [[response'|e'] v2];
    cbn [fst snd] in Hreq, Hnative;
    destruct Hreq as (Hfst & Hi & Ht & Hl & Hd); try done.
  - injection Hfst as <-. destruct (Hnative response eq_refl) as [r ->].
    cbv zeta. change (buffer (native r)) with (consume r).
    rewrite !consume_run. unfold seconds_between. rewrite Ht.
    destruct (Z.of_N ((now v2 - now w) / 10 ^ 9) >=? WarnAfterSeconds);
      cbn [drained write_log]; rewrite Hd;
      destruct (bool_decide (raw_id r ∈ drained v2));
      [|destruct (raw_body r)| |destruct (raw_body r)];
      cbn [fst snd issued log drained now write_log tick mark_drained];
      rewrite ?Hi, ?Hl, ?Hd, ?Ht; done.
  - injection Hfst as <-. unfold seconds_between.
    cbn [fst snd issued log drained now write_log].
    by rewrite Hi, Hl, Hd, Ht.
Qed.

End Transparency.

(** ** Further worked calls *)

Section MoreWorkedCalls.
Import Setting Calls MoreSettings.

(** X2 at work: one reset, then a timeout, with three tries allowed: the
    timeout is thrown after two requests; and one reset, then an answer: the
    answer is returned after two requests. *)
Lemma _fetch_stops_at_first_decisive_outcome_witness :
  let late := reset_then (mkAttempt 1000 (inr timed_out)) in
  let mended := reset_then (mkAttempt 1000 (inl (answer 200 "null"))) in
  (fst (retrying late url caller_options 1 startup) = Throw timed_out ∧
   issued (snd (retrying late url caller_options 1 startup)) = 2%nat) ∧
  (fst (retrying mended url caller_options 1 startup)
     = Return (native (Rt := runtime) (answer 200 "null")) ∧
   issued (snd (retrying mended url caller_options 1 startup)) = 2%nat).
Proof.
  intros late mended.
  assert (H1 : 1 + Z.of_nat 1 ≤ MaxRetries (Constants := constants))
    by (simpl; lia).
  assert (H2 : ∀ net, net = late ∨ net = mended → ∀ i, (i < 1)%nat →
     fails_transiently (K := constants)
       (attempt (Net := net) url caller_options startup i)).
  { intros net Hnet i Hi. destruct i as [|i]; [|lia].
    destruct Hnet as [-> | ->];
      (eexists; split; [reflexivity|]; simpl; discriminate). }
  split.
  - exact (proj2 (_fetch_stops_at_first_decisive_outcome (K := constants)
                    (Net := late) (Rt := runtime) url caller_options startup 1
                    H1 (H2 late (or_introl eq_refl)))
             timed_out eq_refl eq_refl).
  - exact (proj1 (_fetch_stops_at_first_decisive_outcome (K := constants)
                    (Net := mended) (Rt := runtime) url caller_options startup
                    1 H1 (H2 mended (or_intror eq_refl)))
             (answer 200 "null") eq_refl).
Defined.

(** X4 at work: the caller's [method: POST] wins over the default GET, and
    a key the caller does not have reads as the default has it. *)
Lemma merged_property_by_key_witness :
  heap startup !! caller_options = Some {[ "method" := JStr "POST" ]} ∧
  fst (get_prop (merged_at startup) "method"
         (entered (K := constants) (Some caller_options) startup))
    = Return (JStr "POST") ∧
  fst (get_prop (merged_at startup) "method"
         (entered (K := constants) None startup))
    = Return (JStr "GET").
Proof.
  assert (H1 : heap startup !! caller_options
               = Some {[ "method" := JStr "POST" ]}) by reflexivity.
  split; [exact H1|].
  destruct (merged_property_by_key (K := constants) "method" startup)
    as (Hmine & Hdefault).
  split; [exact (Hmine _ _ H1)|exact Hdefault].
Defined.

(** X7 at work: an answered call has read the body of response 7; a call
    whose request times out has read none. *)
Lemma fetch_always_drains_witness :
  let net := answering (answer 200 "null") in
  fst (requesting net url None startup)
    = Return (native (Rt := runtime) (answer 200 "null")) ∧
  (raw_id (answer 200 "null") ∉ drained startup) ∧
  drained (snd (calling net url None startup)) = [7%nat] ∧
  fst (requesting stalling url None startup) = Throw timed_out ∧
  drained (snd (calling stalling url None startup)) = [].
Proof.
  intros net.
  assert (H1 : fst (requesting net url None startup)
               = Return (native (Rt := runtime) (answer 200 "null")))
    by (vm_compute; reflexivity).
  assert (H2 : raw_id (answer 200 "null") ∉ drained startup)
    by apply not_elem_of_nil.
  assert (H3 : fst (requesting stalling url None startup) = Throw timed_out)
    by (vm_compute; reflexivity).
  split; [exact H1|]. split; [exact H2|]. split.
  - exact (proj1 (fetch_always_drains (K := constants) (Net := net)
                    (Rt := runtime) (P := package) url None startup)
             _ H1 H2).
  - split; [exact H3|].
    exact (proj2 (fetch_always_drains (K := constants) (Net := stalling)
                    (Rt := runtime) (P := package) url None startup)
             _ H3).
Defined.

(** X8 at work: the answer comes after six seconds and its body never
    arrives; the call throws the error of the body and has logged the
    warning and then the error line. *)
Lemma drain_failure_fails_the_call_witness :
  fst (requesting dropping url None startup)
    = Return (native (Rt := runtime) (headless 200)) ∧
  (raw_id (headless 200) ∉ drained startup) ∧
  raw_body (headless 200) = inr body_lost ∧
  fst (calling dropping url None startup) = Throw body_lost ∧
  log (snd (calling dropping url None startup))
    = [(Warn, warning_text url 6); (Err, error_text url body_lost 6)].
Proof.
  assert (H1 : fst (requesting dropping url None startup)
               = Return (native (Rt := runtime) (headless 200)))
    by (vm_compute; reflexivity).
  assert (H2 : raw_id (headless 200) ∉ drained startup)
    by apply not_elem_of_nil.
  assert (H3 : raw_body (headless 200) = inr body_lost) by reflexivity.
  split; [exact H1|]. split; [exact H2|]. split; [exact H3|].
  destruct (drain_failure_fails_the_call (K := constants) (Net := dropping)
              (Rt := runtime) (P := package) url None startup _ _ H1 H2 H3)
    as (Hthrow & Hlog).
  split; [exact Hthrow|].
  unfold calling. rewrite Hlog. vm_compute. reflexivity.
Defined.

(** X10 at work: a 404 is returned as a response, after one request and
    without an error line. *)
Lemma fetch_returns_any_status_witness :
  let net := answering (answer 404 "null") in
  let res := calling net url None startup in
  reaches_transport (K := constants) (Rt := runtime) url None startup ∧
  call_attempt (K := constants) (Net := net) url None startup 0
    = inl (answer 404 "null") ∧
  fst res = Return (Fetcher.buffered (Rt := runtime) url
                      (native (Rt := runtime) (answer 404 "null"))
                      (String.list_byte_of_string "null")) ∧
  status (returned no_response res) = 404 ∧
  issued (snd res) = 1%nat ∧
  lines Err (log (snd res)) = [].
Proof.
  intros net res.
  assert (H1 : reaches_transport (K := constants) (Rt := runtime) url None
                 startup) by (left; reflexivity).
  assert (H2 : call_attempt (K := constants) (Net := net) url None startup 0
               = inl (answer 404 "null")) by reflexivity.
  split; [exact H1|]. split; [exact H2|].
  destruct (fetch_returns_any_status (K := constants) (Net := net)
              (Rt := runtime) (P := package) url None startup
              (answer 404 "null") (String.list_byte_of_string "null")
              H1 H2 eq_refl (not_elem_of_nil _))
    as (Hret & Hstatus & Hissued & Hlines).
  split; [exact Hret|]. split; [|split; [exact Hissued|exact Hlines]].
  unfold returned, res, calling. rewrite Hret. exact Hstatus.
Defined.

(** X11 at work: tracked, with a url that has no scheme, the call makes no
    request at all; and no call makes more than the three requests
    allowed. *)
Lemma fetch_request_budget_witness :
  let net := answering (answer 200 "null") in
  let made :=
    (issued (snd (calling net "api.example.com/items" None registered))
     - issued registered)%nat in
  (∃ t, tracking (K := constants) None registered = Some t) ∧
  URL_host (Runtime := runtime) "api.example.com/items"
    = inr (mkError "TypeError" None "Invalid URL") ∧
  made = 0%nat ∧
  Z.of_nat made ≤ 3.
Proof.
  intros net made.
  assert (H1 : ∃ t, tracking (K := constants) None registered = Some t)
    by (eexists; vm_compute; reflexivity).
  assert (H2 : URL_host (Runtime := runtime) "api.example.com/items"
               = inr (mkError "TypeError" None "Invalid URL"))
    by reflexivity.
  split; [exact H1|]. split; [exact H2|].
  destruct H1 as [t Ht].
  destruct (fetch_request_budget (K := constants) (Net := net)
              (Rt := runtime) (P := package)
              "api.example.com/items" None registered) as (Hmost & Hnone).
  split; [exact (Hnone t _ Ht H2)|exact Hmost].
Defined.

(** X12 at work: status 200, body [oops]; the error that [json()] throws is
    an [Error] without a type tag whose message ends with the parse error. *)
Lemma json_failure_wraps_parse_error_witness :
  let res := calling (answering (answer 200 "oops")) url None startup in
  let response := returned no_response res in
  let parse_error := mkError "SyntaxError" None "Unexpected token in JSON" in
  res = (Return response, snd res) ∧
  fst (buffer response (snd res)) = Return (String.list_byte_of_string "oops") ∧
  JSON_parse (Runtime := runtime) "oops" = inr parse_error ∧
  ∃ err,
    fst (json response startup) = Throw err ∧
    e_name err = "Error" ∧ e_type err = None ∧
    ∃ before, e_message err = before +:+ Error_toString parse_error.
Proof.
  intros res response parse_error.
  assert (H1 : res = (Return response, snd res)) by (vm_compute; reflexivity).
  assert (H2 : fst (buffer response (snd res))
               = Return (String.list_byte_of_string "oops"))
    by (vm_compute; reflexivity).
  assert (H3 : JSON_parse (Runtime := runtime) "oops" = inr parse_error)
    by reflexivity.
  split; [exact H1|]. split; [exact H2|]. split; [exact H3|].
  exact (json_failure_wraps_parse_error (K := constants)
           (Net := answering (answer 200 "oops")) (Rt := runtime)
           (P := package) url None startup response (snd res) _ _
           H1 H2 H3 startup).
Defined.

(** X13 at work: a tracked POST to api.example.com answered with 200. *)
Lemma tracked_observation_labels_witness :
  let net := answering (answer 200 "null") in
  let req := requesting net url (Some caller_options) registered in
  (∃ t, tracking (K := constants) (Some caller_options) registered = Some t) ∧
  URL_host (Runtime := runtime) url = inl "api.example.com" ∧
  fst req = Return (native (Rt := runtime) (answer 200 "null")) ∧
  observations (snd (calling net url (Some caller_options) registered))
    = [mkObservation "external_http_request_duration_seconds"
         {[ "target" := JStr "api.example.com";
            "method" := JStr "POST";
            "statusCode" := JNum 200 ]}
         1000].
Proof.
  intros net req.
  assert (H1 : ∃ t, tracking (K := constants) (Some caller_options) registered
                    = Some t) by (eexists; vm_compute; reflexivity).
  assert (H2 : URL_host (Runtime := runtime) url = inl "api.example.com")
    by reflexivity.
  assert (H3 : fst req = Return (native (Rt := runtime) (answer 200 "null")))
    by (vm_compute; reflexivity).
  split; [exact H1|]. split; [exact H2|]. split; [exact H3|].
  destruct H1 as [t Ht].
  unfold calling.
  rewrite (tracked_observation_labels (K := constants) (Net := net)
             (Rt := runtime) (P := package) url (Some caller_options)
             registered t "api.example.com" _ Ht H2 H3).
  vm_compute. reflexivity.
Defined.

(** X14 at work: registration at start-up, then a tracked call; its
    observation is recorded under the registered name, and its labels are
    declared. *)
Lemma registered_histogram_fits_observations_witness :
  let w' := snd (calling (answering (answer 200 "null")) url None registered) in
  ∃ o h,
    observations w' = [o] ∧
    (∃ t, metricsTracker registered = Some t ∧
          metrics t !! o_metric o = Some h) ∧
    ∀ key, is_Some (o_labels o !! key) → key ∈ h_labelNames h.
Proof.
  cbv zeta.
  destruct (registered_histogram_fits_observations (K := constants)
              (Net := answering (answer 200 "null")) (Rt := runtime)
              (P := package) url None startup)
    as (t & h & seen & Ht & _ & _ & _ & Hobs & Hfit).
  fold registered in Ht, Hobs. fold (calling (answering (answer 200 "null")))
    in Hobs.
  destruct seen as [|o [|o' seen]].
  - vm_compute in Hobs. discriminate.
  - exists o, h. split; [exact Hobs|].
    destruct (Hfit o (list_elem_of_here _ _)) as (Hm & Hkeys).
    split; [|exact Hkeys]. exists t. split; [exact Ht|exact Hm].
  - vm_compute in Hobs. discriminate.
Defined.

(** X15 at work: the same slow answer with a tracker registered and without
    one: the same response, the same warning, one request either way. *)
Lemma tracking_is_transparent_witness :
  let net := dawdling (answer 200 "null") in
  (∃ host, URL_host (Runtime := runtime) url = inl host) ∧
  fst (calling net url None registered) = fst (calling net url None startup) ∧
  log (snd (calling net url None registered))
    = log (snd (calling net url None startup)) ∧
  issued (snd (calling net url None registered))
    = issued (snd (calling net url None startup)).
Proof.
  intros net.
  assert (H1 : ∃ host, URL_host (Runtime := runtime) url = inl host)
    by (by eexists).
  split; [exact H1|].
  destruct (tracking_is_transparent (K := constants) (Net := net)
              (Rt := runtime) (P := package) url None registered H1)
    as (Hfst & Hissued & Hlog & _).
  split; [exact Hfst|]. split; [exact Hlog|exact Hissued].
Defined.

End MoreWorkedCalls.

(** * The response a call returns *)

Section ReturnedResponse.
Context `{K : Constants} `{Net : Network} `{Rt : Runtime} `{P : MetricsPackage}.

(** A response that [_fetch] returns is the answer to the last request it
    made. *)
Lemma _fetch_returned url options retries w response :
  fst (_fetch url options retries w) = Return response →
  ∃ r j,
    response = native r ∧ attempt url options w j = inl r ∧
    issued (snd (_fetch url options retries w)) = (issued w + S j)%nat.
Proof.
  remember (Z.to_nat (MaxRetries - retries)) as n eqn:Hn.
  revert retries w Hn. induction n as [n IH] using lt_wf_ind.
  intros retries w Hn. rewrite _fetch_body. unfold fetch at 1 2. cbv zeta.
  destruct (outcome (wire (issued w) url (heap w !!! options)))
    as [r|err] eqn:Hout.
  - simpl. intros [= <-]. exists r, 0%nat. rewrite attempt_0.
    split; [done|]. split; [done|]. lia.
  - destruct ((retries <? MaxRetries) && not_timeout err) eqn:E; [|done].
    apply andb_prop in E as [Hlt _]. apply Z.ltb_lt in Hlt. intros Hret.
    match type of Hret with context [_fetch _ _ ?q ?w1] =>
      destruct (IH (Z.to_nat (MaxRetries - q)) ltac:(lia) q w1 eq_refl Hret)
        as (r & j & -> & Hatt & Hiss) end.
    rewrite attempt_shift in Hatt. exists r, (S j).
    split; [done|]. split; [done|]. rewrite Hiss. simpl. lia.
Qed.

(** So is a response that the request of a call returns. *)
Lemma fetch_request_returned url options w response :
  let req :=
    Fetcher.fetch_request url (merged_at w) (tracking options w)
      (entered options w) in
  fst req = Return response →
  ∃ r j,
    response = native r ∧ call_attempt url options w j = inl r ∧
    issued (snd req) = (issued w + S j)%nat.
Proof.
  cbv zeta. intros Hret.
  assert (Hreach : reaches_transport url options w).
  { destruct (tracking options w) as [t|] eqn:Ht; [|by left].
    destruct (URL_host url) as [host|e] eqn:Hu; [right; by exists host|].
    by rewrite (fetch_request_invalid_url _ _ _ e _ Hu) in Hret. }
  destruct (request_reaches_transport url options w Hreach)
    as (w1 & Hi & Hatt & Hfst & Hiss).
  rewrite Hfst in Hret.
  destruct (_fetch_returned _ _ _ _ _ Hret) as (r & j & -> & Hr & Hj).
  exists r, j. split; [done|]. split; [by rewrite <- Hatt|].
  by rewrite Hiss, Hj, Hi.
Qed.

(** C3, as the code has it. When a call gets as far as the transport, its
    first [MaxRetries - 1] requests fail with errors that are not timeouts
    and request number [MaxRetries] is answered, the call has made exactly
    [MaxRetries] requests, and it returns that very response, with its
    status and with the body behind the accessors, when the body arrives;
    when reading the body fails, the call throws the error of the body. *)
Theorem fetch_succeeds_on_last_try url options w r :
  reaches_transport url options w →
  1 ≤ MaxRetries →
  (∀ i, (i < Z.to_nat MaxRetries - 1)%nat →
        fails_transiently (call_attempt url options w i)) →
  call_attempt url options w (Z.to_nat MaxRetries - 1) = inl r →
  raw_id r ∉ drained w →
  let res := Fetcher.fetch fetcher url options w in
  issued (snd res) = (issued w + Z.to_nat MaxRetries)%nat ∧
  match raw_body r with
  | inl b =>
      ∃ response,
        fst res = Return response ∧
        response_id response = raw_id r ∧
        status response = raw_status r ∧
        ∀ w2, buffer response w2 = (Return b, w2) ∧
              text response w2 = (Return (Buffer_toString b), w2)
  | inr e => fst res = Throw e
  end.
Proof.
  intros Hreach Hmax Hfail Hr Hfresh. cbv zeta.
  destruct (request_reaches_transport url options w Hreach)
    as (w1 & Hi & Hatt & Hfst & Hiss).
  destruct (fetch_after_request url options w) as (_ & _ & _ & ->).
  destruct (_fetch_after_failures (Z.to_nat MaxRetries - 1) url (merged_at w)
              1 w1) as (w2 & Heq & Hi2 & Hh2).
  { lia. }
  { intros i Hlt. rewrite Hatt. by apply Hfail. }
  assert (Hlast : attempt url (merged_at w) w2 0 = inl r).
  { rewrite <- Hatt in Hr. unfold attempt in *.
    by rewrite Hi2, Hh2, Nat.add_0_r. }
  rewrite Heq, (_fetch_returns_at_once _ _ _ _ r Hlast) in Hfst, Hiss.
  split; [rewrite Hiss; simpl; lia|].
  destruct (Fetcher.fetch_request url (merged_at w) (tracking options w)
              (entered options w)) as [res wr] eqn:Hreq.
  cbn [fst] in Hfst. subst res.
  rewrite (fetch_run_returned _ _ _ _ _ Hreq Hfresh).
  destruct (raw_body r) as [b|e]; [|done].
  eexists. split; [done|]. by repeat split.
Qed.

(** C5. A call that returns has read the body of the response that the
    transport sent, once: the bytes behind the returned response are those
    of that body, and its status is that of the response. From then on, in
    every world and so however often and in whatever order they are called,
    the accessors read no body and leave the world as it is: [buffer()]
    gives those bytes, [text()] their text, the same string every time, and
    [json()] what [JSON.parse] makes of that text: its value, or, when the
    text is not JSON, the error that names the url, the status and the
    text. *)
Theorem buffered_response_rereads url options w response w' :
  Fetcher.fetch fetcher url options w = (Return response, w') →
  ∃ r bytes j,
    call_attempt url options w j = inl r ∧
    issued w' = (issued w + S j)%nat ∧
    raw_body r = inl bytes ∧
    response_id response = raw_id r ∧
    status response = raw_status r ∧
    (raw_id r ∉ drained w) ∧
    drained w' = drained w ++ [raw_id r] ∧
    ∀ w2,
      buffer response w2 = (Return bytes, w2) ∧
      text response w2 = (Return (Buffer_toString bytes), w2) ∧
      (∀ w3, fst (text response w3) = fst (text response w2)) ∧
      json response w2 =
        (match JSON_parse (Buffer_toString bytes) with
         | inl v => Return v
         | inr e =>
             Throw (mkError "Error" None
               ("Error parsing response from " +:+ url +:+
                ". Status: " +:+ pretty (raw_status r) +:+
                ". Body: " +:+ Buffer_toString bytes +:+
                ". " +:+ Error_toString e))
         end, w2).
Proof.
  intros Hret.
  destruct (Fetcher.fetch_request url (merged_at w) (tracking options w)
              (entered options w)) as [res w2] eqn:Hreq.
  destruct res as [response0|e];
    [|by rewrite fetch_run, Hreq in Hret].
  destruct (fetch_request_returned url options w response0)
    as (r & j & -> & Hatt & Hiss); [by rewrite Hreq|].
  rewrite Hreq in Hiss. cbn [snd] in Hiss.
  destruct (fetch_request_effects url (merged_at w) (tracking options w)
              (entered options w)) as (_ & Hd & _).
  destruct (entered_frame options w) as (_ & _ & Hd' & _).
  rewrite Hreq in Hd. cbn [snd] in Hd. rewrite Hd' in Hd.
  destruct (decide (raw_id r ∈ drained w)) as [Hin|Hfresh].
  { rewrite fetch_run, Hreq in Hret. cbv zeta in Hret.
    change (buffer (native r)) with (consume r) in Hret.
    rewrite consume_run in Hret.
    rewrite bool_decide_eq_true_2 in Hret; [done|].
    destruct (_ >=? _); simpl; by rewrite Hd. }
  rewrite (fetch_run_returned _ _ _ _ _ Hreq Hfresh) in Hret.
  destruct (raw_body r) as [b|e] eqn:Hb; [|done].
  injection Hret as <- <-. exists r, b, j.
  split; [done|]. split; [by destruct (_ >=? _)|]. split; [done|].
  split; [done|]. split; [done|]. split; [done|].
  split; [destruct (_ >=? _); simpl; by rewrite Hd|].
  intros w3. split; [done|]. split; [done|]. split; [done|].
  apply json_of_buffered.
Qed.

End ReturnedResponse.

Section ReturnedResponseAtWork.
Import Setting Calls MoreSettings.

(** C3 put to the test: two resets, then an answer with status 200 whose
    body never arrives. The third request is answered, and the call throws
    the error of the body instead of returning the response. *)
Lemma answer_without_body_not_returned :
  ¬ returns_answer_of_last_try (K := constants) (Net := flaky (headless 200))
      (Rt := runtime) (P := package) url None startup.
Proof.
  unfold returns_answer_of_last_try. intros H.
  destruct (H (or_introl eq_refl)) with (r := headless 200)
    as (response & Hret & _).
  - simpl. lia.
  - intros i Hi. destruct i as [|[|i]]; [| |simpl in Hi; lia].
    all: eexists; split; [reflexivity|]; simpl; discriminate.
  - reflexivity.
  - vm_compute in Hret. discriminate.
Qed.

Example answer_without_body_call :
  let res := calling (flaky (headless 200)) url None startup in
  fst res = Throw body_lost ∧ issued (snd res) = 3%nat ∧
  lines Err (log (snd res)) = [error_text url body_lost 0].
Proof. vm_compute. done. Qed.

(** C3 at work: two resets, then an answer with status 200 and the body
    [true]; the call returns it after three requests. *)
Lemma fetch_succeeds_on_last_try_witness :
  let net := flaky (answer 200 "true") in
  let res := calling net url None startup in
  reaches_transport (K := constants) (Rt := runtime) url None startup ∧
  1 ≤ MaxRetries (Constants := constants) ∧
  (∀ i, (i < 2)%nat →
     fails_transiently (K := constants)
       (call_attempt (K := constants) (Net := net) url None startup i)) ∧
  call_attempt (K := constants) (Net := net) url None startup 2
    = inl (answer 200 "true") ∧
  (raw_id (answer 200 "true") ∉ drained startup) ∧
  issued (snd res) = 3%nat ∧
  ∃ response,
    fst res = Return response ∧
    status response = 200 ∧
    text response startup = (Return "true", startup).
Proof.
  intros net res.
  assert (H0 : reaches_transport (K := constants) (Rt := runtime) url None
                 startup) by (left; reflexivity).
  assert (H1 : 1 ≤ MaxRetries (Constants := constants)) by (simpl; lia).
  assert (H2 : ∀ i, (i < 2)%nat →
     fails_transiently (K := constants)
       (call_attempt (K := constants) (Net := net) url None startup i)).
  { intros i Hi. destruct i as [|[|i]]; [| |lia].
    all: eexists; split; [reflexivity|]; simpl; discriminate. }
  assert (H3 : call_attempt (K := constants) (Net := net) url None startup 2
               = inl (answer 200 "true")) by reflexivity.
  assert (H4 : raw_id (answer 200 "true") ∉ drained startup)
    by apply not_elem_of_nil.
  split; [exact H0|]. split; [exact H1|]. split; [exact H2|].
  split; [exact H3|]. split; [exact H4|].
  destruct (fetch_succeeds_on_last_try (K := constants) (Net := net)
              (Rt := runtime) (P := package) url None startup
              (answer 200 "true") H0 H1 H2 H3 H4)
    as (Hissued & response & Hret & _ & Hstatus & Hacc).
  split; [exact Hissued|]. exists response.
  split; [exact Hret|]. split; [exact Hstatus|].
  exact (proj2 (Hacc startup)).
Defined.

(** C5 at work: the transport answers the first request with the body
    [null]. The call reads that body once; [text()], [buffer()] and
    [text()] again, in the world the call left, give the same bytes and
    text, and [json()] the value. *)
Lemma buffered_response_rereads_witness :
  let net := answering (answer 200 "null") in
  let res := calling net url None startup in
  let response := returned no_response res in
  res = (Return response, snd res) ∧
  call_attempt (K := constants) (Net := net) url None startup 0
    = inl (answer 200 "null") ∧
  drained (snd res) = [raw_id (answer 200 "null")] ∧
  text response (snd res) = (Return "null", snd res) ∧
  buffer response (snd res)
    = (Return (String.list_byte_of_string "null"), snd res) ∧
  text response (snd res) = (Return "null", snd res) ∧
  json response (snd res) = (Return JSONnull, snd res).
Proof.
  intros net res response.
  assert (H1 : res = (Return response, snd res)) by (vm_compute; reflexivity).
  split; [exact H1|]. split; [reflexivity|].
  destruct (buffered_response_rereads (K := constants) (Net := net)
              (Rt := runtime) (P := package) url None startup response
              (snd res) H1)
    as (r & bytes & j & Hatt & Hissued & Hbody & _ & _ & _ & Hd & Hacc).
  assert (Hj : j = 0%nat).
  { assert (Hi : issued (snd res) = 1%nat) by (vm_compute; reflexivity).
    rewrite Hi in Hissued. simpl in Hissued. lia. }
  subst j. assert (Hr : r = answer 200 "null").
  { assert (Ha : call_attempt (K := constants) (Net := net) url None startup 0
                 = inl (answer 200 "null")) by reflexivity.
    rewrite Ha in Hatt. by injection Hatt as <-. }
  subst r. injection Hbody as <-.
  destruct (Hacc (snd res)) as (Hb & Ht & _ & Hj).
  split; [exact Hd|]. split; [exact Ht|]. split; [exact Hb|].
  split; [exact Ht|exact Hj].
Defined.

End ReturnedResponseAtWork.
